(** * LeveragePathsStories: the buffering engine of App.tsx and the route
      check of RoutePlanner.tsx, embedded and verified.

    The React component is modelled as a state record (one field per
    [useState]/[useRef] cell the claims talk about) together with the
    asynchronous invocations in flight.  Every handler is a pure function on
    that record; every [await] is a suspension point: the invocation is
    parked in the record with the stage it waits at, and an event delivers
    the settlement of the awaited promise. *)

From Stdlib Require Import ZArith List Bool String Ascii Lia.
From Stdlib Require Import Sorting.Sorted Sorting.Permutation.
From Stdlib Require Import DecimalString.
Import ListNotations.
Open Scope string_scope.
Open Scope list_scope.
Open Scope Z_scope.

(** ** JavaScript values used by the component *)

(** A JavaScript string is a sequence of UTF-16 code units.  The texts that
    reach the component from outside (generated prose, outline beats) are
    kept as such sequences; the string literals of the source are ASCII. *)
Definition JsString : Type := list N.

(** The code units of an ASCII literal. *)
Definition units (s : string) : JsString :=
  map N_of_ascii (list_ascii_of_string s).

(** The [message] property of a thrown value, as far as line 185 of App.tsx
    can tell values apart. *)
Inductive Message : Type :=
| MsgFalsy                    (* no such property, or a falsy value that is
                                 not a string: undefined, null, 0, NaN, false *)
| MsgString (s : string)
| MsgOther (answers : string -> option bool).
                              (* a truthy value that is not a string:
                                 [answers needle] is the truth value of
                                 [message.includes(needle)], [None] when
                                 that call throws (no such method) *)

(** A thrown value ([catch (error: any)]).  Reading a property of
    [undefined] or [null] throws; any other value (an [Error], another
    object, a primitive) has or lacks a [message]. *)
Inductive JsError : Type :=
| ThrownNullish
| Thrown (message : Message).

(** [new Error(msg)] *)
Definition Error (msg : string) : JsError := Thrown (MsgString msg).

(** How a promise settles. *)
Inductive Settle (A : Type) : Type :=
| Resolve (v : A)
| Reject (e : JsError).
Arguments Resolve {A} v.
Arguments Reject {A} e.

(** [String.prototype.includes] *)
Fixpoint includes (hay needle : string) : bool :=
  match hay with
  | EmptyString => prefix needle EmptyString
  | String _ rest => prefix needle hay || includes rest needle
  end.

(** [Array.prototype.join(sep)] on strings *)
Fixpoint join (sep : JsString) (l : list JsString) : JsString :=
  match l with
  | [] => []
  | [s] => s
  | s :: rest => s ++ sep ++ join sep rest
  end.

(** [s.slice(-n)]: the last [n] code units, the whole string when shorter. *)
Definition slice_last (n : nat) (s : JsString) : JsString :=
  skipn (List.length s - n)%nat s.

(** Template-literal rendering of an integer. *)
Definition string_of_Z (z : Z) : string :=
  NilZero.string_of_int (Z.to_int z).

(** ** Timeout guard ([withTimeout], App.tsx lines 23-32) *)

Module TimeoutGuard.

(** Life cycle of the handle returned by [setTimeout]. *)
Inductive Timer : Type := TimerPending | TimerFired | TimerCleared.

(** What can happen to one guarded call, in the order the event loop
    delivers it: the wrapped promise settles, or the timer callback runs. *)
Inductive Occurrence (A : Type) : Type :=
| OpSettles (s : Settle A)
| DeadlineElapses.
Arguments OpSettles {A} s.
Arguments DeadlineElapses {A}.

Record Guard (A : Type) : Type := mkGuard {
  timer : Timer;              (* the [timer] variable's handle *)
  clearCalls : nat;           (* number of [clearTimeout(timer)] calls *)
  opSettled : bool;           (* [promise] has settled *)
  raced : option (Settle A)   (* settlement of [Promise.race([...])] *)
}.
Arguments mkGuard {A}.
Arguments timer {A}.
Arguments clearCalls {A}.
Arguments opSettled {A}.
Arguments raced {A}.

(** State right after [withTimeout] returns: the timer is armed and the
    race is pending. *)
Definition start {A} : Guard A := mkGuard TimerPending 0%nat false None.

(** A promise settles once; later settlements are ignored. *)
Definition settle_once {A} (r : option (Settle A)) (s : Settle A) :=
  match r with
  | Some _ => r
  | None => Some s
  end.

(** [clearTimeout(timer)]: disarms a pending timer, no effect otherwise. *)
Definition clearTimeout (t : Timer) : Timer :=
  match t with
  | TimerPending => TimerCleared
  | _ => t
  end.

Definition step {A} (errorMsg : string) (g : Guard A) (o : Occurrence A)
  : Guard A :=
  match o with
  | OpSettles s =>
      if opSettled g then g
      else
        match s with
        | Resolve v =>
            (* promise.then(val => { clearTimeout(timer); return val; }) *)
            mkGuard (clearTimeout (timer g)) (S (clearCalls g)) true
                    (settle_once (raced g) (Resolve v))
        | Reject e =>
            (* no rejection handler: the derived promise rejects with [e] *)
            mkGuard (timer g) (clearCalls g) true
                    (settle_once (raced g) (Reject e))
        end
  | DeadlineElapses =>
      match timer g with
      | TimerPending =>
          (* () => reject(new Error(errorMsg)) *)
          mkGuard TimerFired (clearCalls g) (opSettled g)
                  (settle_once (raced g) (Reject (Error errorMsg)))
      | _ => g
      end
  end.

Definition run {A} (errorMsg : string) (os : list (Occurrence A)) : Guard A :=
  fold_left (step errorMsg) os start.

(** What [await withTimeout(p, ms, errorMsg)] yields, from the first thing
    that happens to the call. *)
Definition withTimeout {A} (errorMsg : string) (o : Occurrence A) : Settle A :=
  match o with
  | OpSettles s => s
  | DeadlineElapses => Reject (Error errorMsg)
  end.

End TimeoutGuard.

(** ** Data model ([types.ts] is known through its uses in App.tsx and
       RoutePlanner.tsx) *)

Inductive TravelMode : Type := WALKING | DRIVING.
Inductive StoryStyle : Type := NOIR | CHILDREN | HISTORICAL | FANTASY.

(** The object literal built at RoutePlanner.tsx lines 192-201. *)
Record RouteDetails : Type := mkRouteDetails {
  startAddress : string;
  endAddress : string;
  distance : string;
  duration : string;
  durationSeconds : Z;
  travelMode : TravelMode;
  voiceName : string;
  storyStyle : StoryStyle
}.

(** An opaque decoded audio buffer. *)
Definition AudioBuffer : Type := nat.

(** Modelled from the spec: the segment type of [types.ts] is not among the
    sources; "Segment: index, text, audio", of which the code reads
    [s.index], [s.text] and writes [audioBuffer]. *)
Record Segment : Type := mkSegment {
  index : Z;
  text : JsString;
  audioBuffer : option AudioBuffer
}.

(** [{ ...segmentData, audioBuffer }] *)
Definition withAudio (segmentData : Segment) (buf : AudioBuffer) : Segment :=
  mkSegment (index segmentData) (text segmentData) (Some buf).

(** The object literal built at App.tsx lines 172-176. *)
Record AudioStory : Type := mkAudioStory {
  totalSegmentsEstimate : Z;
  outline : list JsString;
  segments : list Segment
}.

(** Modelled from the spec: the enum [AppState] of [types.ts] is not among
    the sources; "an ordered enumeration Planning, RouteConfirmed,
    GeneratingInitialSegment, ReadyToPlay with a total order".  The code
    compares its members with [<], [>] and [>=], that is by their numeric
    values. *)
Inductive AppState : Type :=
| PLANNING
| ROUTE_CONFIRMED
| GENERATING_INITIAL_SEGMENT
| READY_TO_PLAY.

Definition AppState_value (a : AppState) : Z :=
  match a with
  | PLANNING => 0
  | ROUTE_CONFIRMED => 1
  | GENERATING_INITIAL_SEGMENT => 2
  | READY_TO_PLAY => 3
  end.

Definition AppState_ltb (a b : AppState) : bool :=
  AppState_value a <? AppState_value b.

Definition AppState_leb (a b : AppState) : bool :=
  AppState_value a <=? AppState_value b.

(** ** The timeline merge ([setStory] updater, App.tsx lines 121-128) *)

(** [arr.sort((a, b) => a.index - b.index)]: the sort is stable, so an
    element goes in front of the first one whose index is not smaller. *)
Fixpoint insert_by_index (x : Segment) (l : list Segment) : list Segment :=
  match l with
  | [] => [x]
  | y :: rest =>
      if index x <=? index y then x :: l
      else y :: insert_by_index x rest
  end.

Definition sort_by_index (l : list Segment) : list Segment :=
  fold_right insert_by_index [] l.

(** [prev.segments.some(s => s.index === index)] *)
Definition has_index (i : Z) (l : list Segment) : bool :=
  existsb (fun s => index s =? i) l.

Definition mergeSegment (i : Z) (segmentData : Segment) (buf : AudioBuffer)
           (prev : option AudioStory) : option AudioStory :=
  match prev with
  | None => None
  | Some p =>
      if has_index i (segments p) then Some p
      else Some (mkAudioStory (totalSegmentsEstimate p) (outline p)
                   (sort_by_index (segments p ++ [withAudio segmentData buf])))
  end.

(** [outline[i] || fallback]: an absent or empty beat gives the fallback. *)
Definition beat_or (beats : list JsString) (i : Z) (fallback : JsString)
  : JsString :=
  if i <? 0 then fallback
  else match nth_error beats (Z.to_nat i) with
       | Some [] => fallback
       | Some b => b
       | None => fallback
       end.

(** ** The component state *)

Inductive LogEntry : Type :=
| ConsoleLog (msg : string)
| ConsoleError (msg : string) (e : JsError).

(** An [AudioContext] created by [new AudioContextClass()]. *)
Inductive CtxState : Type := CtxRunning | CtxClosed.

(** Where a [generateNextSegment] invocation is suspended. *)
Inductive BgStage : Type :=
| BgAwaitText (segmentOutline allPreviousText : JsString)
| BgAwaitAudio (segmentData : Segment) (tempCtx : nat)
| BgAwaitClose (segmentData : Segment) (buf : AudioBuffer) (tempCtx : nat).

Record BgCall : Type := mkBgCall {
  bg_id : nat;
  bg_index : Z;               (* the [index] argument *)
  bg_route : RouteDetails;    (* [route] of the closure *)
  bg_total : Z;               (* [story.totalSegmentsEstimate] of the closure *)
  bg_stage : BgStage
}.

(** Where a [handleGenerateStory] invocation is suspended. *)
Inductive InitStage : Type :=
| InitAwaitOutline
| InitAwaitText (storyOutline : list JsString) (firstOutlineBeat : JsString)
| InitAwaitAudio (storyOutline : list JsString) (seg1Data : Segment) (tempCtx : nat)
| InitAwaitClose (storyOutline : list JsString) (seg1Data : Segment)
                 (seg1Audio : AudioBuffer) (tempCtx : nat).

Record InitCall : Type := mkInitCall {
  init_id : nat;
  init_details : RouteDetails;
  init_total : Z;             (* the local [totalSegmentsEstimate] *)
  init_stage : InitStage
}.

Record App : Type := mkApp {
  appState : AppState;
  route : option RouteDetails;
  story : option AudioStory;
  loadingMessage : string;
  generationError : option string;
  isGeneratingRef : bool;           (* [isGeneratingRef.current] *)
  isBackgroundGenerating : bool;
  currentPlayingIndex : Z;
  console : list LogEntry;          (* newest last *)
  audioContexts : list CtxState;    (* every context created so far *)
  bgCalls : list BgCall;            (* suspended [generateNextSegment]s *)
  initCalls : list InitCall;        (* suspended [handleGenerateStory]s *)
  nextCall : nat
}.

(** [useState] initial values (App.tsx lines 35-46). *)
Definition initial : App :=
  mkApp PLANNING None None "" None false false 0 [] [] [] [] 0%nat.

Definition setAppState v (a : App) : App :=
  mkApp v (route a) (story a) (loadingMessage a) (generationError a)
        (isGeneratingRef a) (isBackgroundGenerating a) (currentPlayingIndex a)
        (console a) (audioContexts a) (bgCalls a) (initCalls a) (nextCall a).
Definition setRoute v (a : App) : App :=
  mkApp (appState a) v (story a) (loadingMessage a) (generationError a)
        (isGeneratingRef a) (isBackgroundGenerating a) (currentPlayingIndex a)
        (console a) (audioContexts a) (bgCalls a) (initCalls a) (nextCall a).
Definition setStory (f : option AudioStory -> option AudioStory) (a : App) : App :=
  mkApp (appState a) (route a) (f (story a)) (loadingMessage a) (generationError a)
        (isGeneratingRef a) (isBackgroundGenerating a) (currentPlayingIndex a)
        (console a) (audioContexts a) (bgCalls a) (initCalls a) (nextCall a).
Definition setLoadingMessage v (a : App) : App :=
  mkApp (appState a) (route a) (story a) v (generationError a)
        (isGeneratingRef a) (isBackgroundGenerating a) (currentPlayingIndex a)
        (console a) (audioContexts a) (bgCalls a) (initCalls a) (nextCall a).
Definition setGenerationError v (a : App) : App :=
  mkApp (appState a) (route a) (story a) (loadingMessage a) v
        (isGeneratingRef a) (isBackgroundGenerating a) (currentPlayingIndex a)
        (console a) (audioContexts a) (bgCalls a) (initCalls a) (nextCall a).
Definition setIsGeneratingRef v (a : App) : App :=
  mkApp (appState a) (route a) (story a) (loadingMessage a) (generationError a)
        v (isBackgroundGenerating a) (currentPlayingIndex a)
        (console a) (audioContexts a) (bgCalls a) (initCalls a) (nextCall a).
Definition setIsBackgroundGenerating v (a : App) : App :=
  mkApp (appState a) (route a) (story a) (loadingMessage a) (generationError a)
        (isGeneratingRef a) v (currentPlayingIndex a)
        (console a) (audioContexts a) (bgCalls a) (initCalls a) (nextCall a).
Definition setCurrentPlayingIndex v (a : App) : App :=
  mkApp (appState a) (route a) (story a) (loadingMessage a) (generationError a)
        (isGeneratingRef a) (isBackgroundGenerating a) v
        (console a) (audioContexts a) (bgCalls a) (initCalls a) (nextCall a).
Definition consoleWrite (e : LogEntry) (a : App) : App :=
  mkApp (appState a) (route a) (story a) (loadingMessage a) (generationError a)
        (isGeneratingRef a) (isBackgroundGenerating a) (currentPlayingIndex a)
        (console a ++ [e]) (audioContexts a) (bgCalls a) (initCalls a) (nextCall a).
Definition setAudioContexts v (a : App) : App :=
  mkApp (appState a) (route a) (story a) (loadingMessage a) (generationError a)
        (isGeneratingRef a) (isBackgroundGenerating a) (currentPlayingIndex a)
        (console a) v (bgCalls a) (initCalls a) (nextCall a).
Definition setBgCalls v (a : App) : App :=
  mkApp (appState a) (route a) (story a) (loadingMessage a) (generationError a)
        (isGeneratingRef a) (isBackgroundGenerating a) (currentPlayingIndex a)
        (console a) (audioContexts a) v (initCalls a) (nextCall a).
Definition setInitCalls v (a : App) : App :=
  mkApp (appState a) (route a) (story a) (loadingMessage a) (generationError a)
        (isGeneratingRef a) (isBackgroundGenerating a) (currentPlayingIndex a)
        (console a) (audioContexts a) (bgCalls a) v (nextCall a).
Definition bumpNextCall (a : App) : App :=
  mkApp (appState a) (route a) (story a) (loadingMessage a) (generationError a)
        (isGeneratingRef a) (isBackgroundGenerating a) (currentPlayingIndex a)
        (console a) (audioContexts a) (bgCalls a) (initCalls a) (S (nextCall a)).

(** [new AudioContextClass()]: the new context's handle is its position. *)
Definition newAudioContext (a : App) : nat * App :=
  (List.length (audioContexts a), setAudioContexts (audioContexts a ++ [CtxRunning]) a).

Fixpoint close_at (n : nat) (l : list CtxState) : list CtxState :=
  match l, n with
  | [], _ => []
  | _ :: rest, O => CtxClosed :: rest
  | c :: rest, S m => c :: close_at m rest
  end.

(** [tempCtx.close()] has resolved. *)
Definition closeAudioContext (ctx : nat) (a : App) : App :=
  setAudioContexts (close_at ctx (audioContexts a)) a.

Definition find_bg (id : nat) (a : App) : option BgCall :=
  find (fun c => Nat.eqb (bg_id c) id) (bgCalls a).
Definition drop_bg (id : nat) (a : App) : App :=
  setBgCalls (filter (fun c => negb (Nat.eqb (bg_id c) id)) (bgCalls a)) a.
Definition park_bg (c : BgCall) (stage : BgStage) (a : App) : App :=
  setBgCalls (map (fun c' => if Nat.eqb (bg_id c') (bg_id c)
                             then mkBgCall (bg_id c) (bg_index c) (bg_route c)
                                           (bg_total c) stage
                             else c') (bgCalls a)) a.

Definition find_init (id : nat) (a : App) : option InitCall :=
  find (fun c => Nat.eqb (init_id c) id) (initCalls a).
Definition drop_init (id : nat) (a : App) : App :=
  setInitCalls (filter (fun c => negb (Nat.eqb (init_id c) id)) (initCalls a)) a.
Definition park_init (c : InitCall) (stage : InitStage) (a : App) : App :=
  setInitCalls (map (fun c' => if Nat.eqb (init_id c') (init_id c)
                               then mkInitCall (init_id c) (init_details c)
                                               (init_total c) stage
                               else c') (initCalls a)) a.

(** ** The handlers of [App] *)

Import TimeoutGuard.

Inductive Event : Type :=
| RunBufferingEffect                                   (* the effect of lines 84-93 runs *)
| BgText (id : nat) (o : Occurrence Segment)           (* line 106 resumes *)
| BgAudio (id : nat) (o : Occurrence AudioBuffer)      (* line 114 resumes *)
| BgClose (id : nat) (s : Settle unit)                 (* line 119 resumes *)
| RouteFound (details : RouteDetails)                  (* [onRouteFound(details)] *)
| InitOutline (id : nat) (o : Occurrence (list JsString))(* line 150 resumes *)
| InitText (id : nat) (o : Occurrence Segment)         (* line 158 resumes *)
| InitAudio (id : nat) (o : Occurrence AudioBuffer)    (* line 166 resumes *)
| InitClose (id : nat) (s : Settle unit)               (* line 170 resumes *)
| SegmentChange (i : Z)                                (* [onSegmentChange(index)] *)
| ResetClicked.                                        (* [onClick={handleReset}] *)

Section Handlers.

(** [calculateTotalSegments] of [services/geminiService] is not among the
    sources; the handlers are verified for any such function. *)
Variable calculateTotalSegments : Z -> Z.

(** [catch]/[finally] of [generateNextSegment] (lines 131-136), after
    which the invocation is over. *)
Definition bg_finally (c : BgCall) (a : App) : App :=
  drop_bg (bg_id c)
    (setIsBackgroundGenerating false (setIsGeneratingRef false a)).

Definition bg_catch (c : BgCall) (e : JsError) (a : App) : App :=
  bg_finally c
    (consoleWrite
       (ConsoleError ("Failed to generate segment " ++ string_of_Z (bg_index c)) e)
       a).

(** [generateNextSegment(index)] up to its first [await] (lines 95-110). *)
Definition generateNextSegment (i : Z) (a : App) : App :=
  match route a, story a with
  | Some r, Some s =>
      if isGeneratingRef a then a
      else
        let a1 := setIsGeneratingRef true a in
        let a2 := setIsBackgroundGenerating true a1 in
        let a3 := consoleWrite
                    (ConsoleLog ("[Buffering] Starting generation for Segment "
                                 ++ string_of_Z i ++ "..."))
                    a2 in
        let allPreviousText :=
          slice_last 3000 (join (units " ") (map text (segments s))) in
        let segmentOutline :=
          beat_or (outline s) (i - 1)
                  (units "Continue the journey towards the final destination.") in
        bumpNextCall
          (setBgCalls
             (bgCalls a3 ++
              [mkBgCall (nextCall a3) i r (totalSegmentsEstimate s)
                        (BgAwaitText segmentOutline allPreviousText)])
             a3)
  | _, _ => a
  end.

(** The Continuous Buffering Engine effect (lines 84-93). *)
Definition bufferingEffect (a : App) : App :=
  match story a, route a with
  | Some s, Some _ =>
      if AppState_ltb (appState a) READY_TO_PLAY then a
      else
        let totalGenerated := Z.of_nat (List.length (segments s)) in
        let neededBufferIndex := currentPlayingIndex a + 3 in
        if (totalGenerated <? neededBufferIndex)
           && (totalGenerated <? totalSegmentsEstimate s)
           && negb (isGeneratingRef a)
        then generateNextSegment (totalGenerated + 1) a
        else a
  | _, _ => a
  end.

(** Resumptions of [generateNextSegment]. *)
Definition bgText (c : BgCall) (o : Occurrence Segment) (a : App) : App :=
  match withTimeout
          ("Text generation timed out for segment " ++ string_of_Z (bg_index c)) o
  with
  | Resolve segmentData =>
      let '(tempCtx, a1) := newAudioContext a in
      park_bg c (BgAwaitAudio segmentData tempCtx) a1
  | Reject e => bg_catch c e a
  end.

Definition bgAudio (c : BgCall) (segmentData : Segment) (tempCtx : nat)
           (o : Occurrence AudioBuffer) (a : App) : App :=
  match withTimeout
          ("Audio generation timed out for segment " ++ string_of_Z (bg_index c)) o
  with
  | Resolve buf => park_bg c (BgAwaitClose segmentData buf tempCtx) a
  | Reject e => bg_catch c e a
  end.

Definition bgClose (c : BgCall) (segmentData : Segment) (buf : AudioBuffer)
           (tempCtx : nat) (s : Settle unit) (a : App) : App :=
  match s with
  | Resolve _ =>
      let a1 := closeAudioContext tempCtx a in
      let a2 := setStory (mergeSegment (bg_index c) segmentData buf) a1 in
      let a3 := consoleWrite
                  (ConsoleLog ("[Buffering] Segment " ++ string_of_Z (bg_index c)
                               ++ " ready."))
                  a2 in
      bg_finally c a3
  | Reject e => bg_catch c e a
  end.

(** [handleGenerateStory(details)] up to its first [await] (lines 139-153). *)
Definition handleGenerateStory (details : RouteDetails) (a : App) : App :=
  let a1 := setRoute (Some details) a in
  let a2 := setGenerationError None a1 in
  let a3 := setAppState GENERATING_INITIAL_SEGMENT a2 in
  let total := calculateTotalSegments (durationSeconds details) in
  let a4 := setLoadingMessage "Crafting story arc...1 - 2 minutes" a3 in
  bumpNextCall
    (setInitCalls
       (initCalls a4 ++ [mkInitCall (nextCall a4) details total InitAwaitOutline])
       a4).

(** The user-facing message chosen at lines 184-187, [None] when line 185
    throws instead: on a thrown [undefined] or [null], whose [message]
    cannot be read, and on a truthy [message] whose [includes] cannot be
    called. *)
Definition failureMessage (error : JsError) : option string :=
  match error with
  | ThrownNullish => None
  | Thrown MsgFalsy =>
      Some "Failed to start story stream. Please check your locations/connection and try again."
  | Thrown (MsgString m) =>
      if negb (m =? "")%string
         && (includes m "timed out" || includes m "timeout")
      then Some "Story generation timed out. It might be that your journey is too long. Please try again."
      else Some "Failed to start story stream. Please check your locations/connection and try again."
  | Thrown (MsgOther answers) =>
      match answers "timed out" with
      | None => None
      | Some true =>
          Some "Story generation timed out. It might be that your journey is too long. Please try again."
      | Some false =>
          match answers "timeout" with
          | None => None
          | Some true =>
              Some "Story generation timed out. It might be that your journey is too long. Please try again."
          | Some false =>
              Some "Failed to start story stream. Please check your locations/connection and try again."
          end
      end
  end.

(** The [catch] of [handleGenerateStory] (lines 180-190).  When line 185
    throws, the invocation ends there: the phase is already PLANNING and
    [setGenerationError] is not reached. *)
Definition init_catch (c : InitCall) (error : JsError) (a : App) : App :=
  let a1 := consoleWrite (ConsoleError "Initial generation failed:" error) a in
  let a2 := setAppState PLANNING a1 in
  drop_init (init_id c)
    (setGenerationError
       (match failureMessage error with
        | Some msg => Some msg
        | None => generationError a2      (* not reached: the value stays *)
        end)
       a2).

(** Resumptions of [handleGenerateStory]. *)
Definition initOutline (c : InitCall) (o : Occurrence (list JsString)) (a : App)
  : App :=
  match withTimeout "Story outline generation timed out" o with
  | Resolve storyOutline =>
      let a1 := setLoadingMessage "Writing first chapter... 1 minute" a in
      let firstOutlineBeat :=
        beat_or storyOutline 0 (units "Begin the journey.") in
      park_init c (InitAwaitText storyOutline firstOutlineBeat) a1
  | Reject e => init_catch c e a
  end.

Definition initText (c : InitCall) (storyOutline : list JsString)
           (o : Occurrence Segment) (a : App) : App :=
  match withTimeout "Initial text generation timed out" o with
  | Resolve seg1Data =>
      let a1 := setLoadingMessage "Preparing audio stream...30 seconds" a in
      let '(tempCtx, a2) := newAudioContext a1 in
      park_init c (InitAwaitAudio storyOutline seg1Data tempCtx) a2
  | Reject e => init_catch c e a
  end.

Definition initAudio (c : InitCall) (storyOutline : list JsString)
           (seg1Data : Segment) (tempCtx : nat)
           (o : Occurrence AudioBuffer) (a : App) : App :=
  match withTimeout "Initial audio generation timed out" o with
  | Resolve seg1Audio =>
      park_init c (InitAwaitClose storyOutline seg1Data seg1Audio tempCtx) a
  | Reject e => init_catch c e a
  end.

Definition initClose (c : InitCall) (storyOutline : list JsString)
           (seg1Data : Segment) (seg1Audio : AudioBuffer) (tempCtx : nat)
           (s : Settle unit) (a : App) : App :=
  match s with
  | Resolve _ =>
      let a1 := closeAudioContext tempCtx a in
      let a2 := setStory
                  (fun _ => Some (mkAudioStory (init_total c) storyOutline
                                               [withAudio seg1Data seg1Audio]))
                  a1 in
      drop_init (init_id c) (setAppState READY_TO_PLAY a2)
  | Reject e => init_catch c e a
  end.

(** [handleReset] (lines 193-202). *)
Definition handleReset (a : App) : App :=
  setIsBackgroundGenerating false
    (setIsGeneratingRef false
       (setGenerationError None
          (setCurrentPlayingIndex 0
             (setStory (fun _ => None)
                (setRoute None
                   (setAppState PLANNING a)))))).

(** One turn of the event loop.  A settlement addressed to an invocation
    that is not suspended at the matching [await] cannot occur and leaves
    the state alone. *)
Definition step (a : App) (ev : Event) : App :=
  match ev with
  | RunBufferingEffect => bufferingEffect a
  | BgText id o =>
      match find_bg id a with
      | Some c =>
          match bg_stage c with
          | BgAwaitText _ _ => bgText c o a
          | _ => a
          end
      | None => a
      end
  | BgAudio id o =>
      match find_bg id a with
      | Some c =>
          match bg_stage c with
          | BgAwaitAudio segmentData tempCtx => bgAudio c segmentData tempCtx o a
          | _ => a
          end
      | None => a
      end
  | BgClose id s =>
      match find_bg id a with
      | Some c =>
          match bg_stage c with
          | BgAwaitClose segmentData buf tempCtx =>
              bgClose c segmentData buf tempCtx s a
          | _ => a
          end
      | None => a
      end
  | RouteFound details => handleGenerateStory details a
  | InitOutline id o =>
      match find_init id a with
      | Some c =>
          match init_stage c with
          | InitAwaitOutline => initOutline c o a
          | _ => a
          end
      | None => a
      end
  | InitText id o =>
      match find_init id a with
      | Some c =>
          match init_stage c with
          | InitAwaitText storyOutline _ => initText c storyOutline o a
          | _ => a
          end
      | None => a
      end
  | InitAudio id o =>
      match find_init id a with
      | Some c =>
          match init_stage c with
          | InitAwaitAudio storyOutline seg1Data tempCtx =>
              initAudio c storyOutline seg1Data tempCtx o a
          | _ => a
          end
      | None => a
      end
  | InitClose id s =>
      match find_init id a with
      | Some c =>
          match init_stage c with
          | InitAwaitClose storyOutline seg1Data seg1Audio tempCtx =>
              initClose c storyOutline seg1Data seg1Audio tempCtx s a
          | _ => a
          end
      | None => a
      end
  | SegmentChange i => setCurrentPlayingIndex i a
  | ResetClicked => handleReset a
  end.

Definition run (a : App) (evs : list Event) : App := fold_left step evs a.

End Handlers.

(** ** Which events the rendered page can deliver *)

(** [story && route && appState >= READY_TO_PLAY] guards the player and the
    reset button (App.tsx line 246); the planner's button is disabled once
    [appState > ROUTE_CONFIRMED] (RoutePlanner.tsx lines 215 and 359). *)
Definition playerShown (a : App) : bool :=
  AppState_leb READY_TO_PLAY (appState a)
  && match story a with Some _ => true | None => false end
  && match route a with Some _ => true | None => false end.

Definition offered (a : App) (ev : Event) : bool :=
  match ev with
  | RouteFound _ => AppState_leb (appState a) ROUTE_CONFIRMED
  | SegmentChange _ => playerShown a
  | ResetClicked => playerShown a
  | _ => true
  end.

(** Modelled from the spec: [generateSegment] of [services/geminiService] is
    not among the sources; "produce one ready-to-play Segment for a requested
    index": the segment it resolves with carries the index it was asked for
    ([bg_index] in the background, the literal 1 in the initial generation). *)
Definition faithful (a : App) (ev : Event) : bool :=
  match ev with
  | BgText id (OpSettles (Resolve segmentData)) =>
      match find_bg id a with
      | Some c => index segmentData =? bg_index c
      | None => true
      end
  | InitText _ (OpSettles (Resolve seg1Data)) => index seg1Data =? 1
  | _ => true
  end.

(** A reset is quiet when no background generation is suspended. *)
Definition quietReset (a : App) (ev : Event) : bool :=
  match ev with
  | ResetClicked => match bgCalls a with [] => true | _ => false end
  | _ => true
  end.

Section Traces.

Variable calculateTotalSegments : Z -> Z.

(** Every event of the trace satisfies [p] in the state it arrives in. *)
Fixpoint along (p : App -> Event -> bool) (a : App) (evs : list Event) : bool :=
  match evs with
  | [] => true
  | ev :: rest => p a ev && along p (step calculateTotalSegments a ev) rest
  end.

End Traces.

(** ** Timeline properties *)

(** Strictly ascending indices: sorted and free of duplicates. *)
Definition ascending (l : list Segment) : Prop :=
  StronglySorted Z.lt (map index l).

(** The indices are exactly 1, 2, ..., length. *)
Definition contiguous (l : list Segment) : Prop :=
  map index l = map Z.of_nat (seq 1 (List.length l)).

(** Number of segments carrying index [i]. *)
Definition count_index (i : Z) (l : list Segment) : nat :=
  List.length (filter (fun s => index s =? i) l).

(** ** Route confirmation ([handleCalculate], RoutePlanner.tsx lines 157-213) *)

Module RoutePlanner.

Record Planner : Type := mkPlanner {
  startAddress : string;
  endAddress : string;
  travelMode : TravelMode;
  selectedStyle : StoryStyle;
  selectedVoice : string;
  error : option string;
  isLoading : bool
}.

(** [result.routes[0].legs[0]] *)
Record Leg : Type := mkLeg {
  start_address : string;
  end_address : string;
  distance_text : string;
  duration_text : string;
  duration_value : Z
}.

(** The [(result, status)] pair handed to the directions callback. *)
Inductive Directions : Type :=
| StatusOK (leg : Leg)
| StatusZeroResults
| StatusOther.

Definition setError (e : option string) (p : Planner) : Planner :=
  mkPlanner (startAddress p) (endAddress p) (travelMode p) (selectedStyle p)
            (selectedVoice p) e (isLoading p).
Definition setIsLoading (b : bool) (p : Planner) : Planner :=
  mkPlanner (startAddress p) (endAddress p) (travelMode p) (selectedStyle p)
            (selectedVoice p) (error p) b.

Definition tooLong : string :=
  "Sorry, this journey is too long. Please select a route under 4 hours.".

(** [travelMode.toLowerCase()] *)
Definition lowerMode (m : TravelMode) : string :=
  match m with WALKING => "walking" | DRIVING => "driving" end.

(** The synchronous part (lines 157-175): the planner afterwards, and the
    origin and destination of the directions request when one is sent. *)
Definition handleCalculate (mapsLoaded : bool) (p : Planner)
  : Planner * option (string * string) :=
  let finalStart := startAddress p in
  let finalEnd := endAddress p in
  if (finalStart =? "")%string || (finalEnd =? "")%string then
    (setError (Some "Please search for and select both a start and end location from the suggestions.") p,
     None)
  else if negb mapsLoaded then
    (setError (Some "Google Maps API is not loaded yet. Please refresh.") p, None)
  else
    (setIsLoading true (setError None p), Some (finalStart, finalEnd)).

(** The directions callback (lines 182-211): the planner afterwards, and
    the argument of [onRouteFound] when it is called.  The callback is a
    closure of the render in which the button was clicked: [clicked] is the
    planner of that render, whose addresses, travel mode, voice and style it
    reads; [p] is the planner when the answer arrives, which the state
    setters update. *)
Definition directionsCallback (clicked : Planner) (d : Directions)
           (p : Planner) : Planner * option RouteDetails :=
  let finalStart := startAddress clicked in
  let finalEnd := endAddress clicked in
  let p1 := setIsLoading false p in
  match d with
  | StatusOK leg =>
      if 14400 <? duration_value leg then (setError (Some tooLong) p1, None)
      else
        (p1,
         Some (mkRouteDetails (start_address leg) (end_address leg)
                              (distance_text leg) (duration_text leg)
                              (duration_value leg) (travelMode clicked)
                              (selectedVoice clicked) (selectedStyle clicked)))
  | StatusZeroResults =>
      (setError
         (Some ("Sorry, we could not calculate " ++ lowerMode (travelMode clicked)
                ++ " directions from " ++ String (ascii_of_nat 34) finalStart
                ++ String (ascii_of_nat 34) " to "
                ++ String (ascii_of_nat 34) finalEnd
                ++ String (ascii_of_nat 34) "")%string)
         p1,
       None)
  | StatusOther =>
      (setError (Some "Could not calculate route. Please check the locations and try again.") p1,
       None)
  end.

End RoutePlanner.

(** ** Vocabulary of the statements *)

(** The effect starts a [generateNextSegment] invocation for index [i]: one
    more invocation is suspended, it was asked for [i], and it holds the
    single-flight flag. *)
Definition launches (a : App) (i : Z) : Prop :=
  exists c, bgCalls (bufferingEffect a) = bgCalls a ++ [c]
            /\ bg_index c = i
            /\ isGeneratingRef (bufferingEffect a) = true.

(** The settlement makes the awaited step fail: a rejection, or the deadline. *)
Definition fails {A} (o : Occurrence A) : Prop :=
  match o with
  | OpSettles (Resolve _) => False
  | _ => True
  end.

(** The invocation [c] is suspended at the [await] that [ev] resumes. *)
Definition init_awaits (c : InitCall) (ev : Event) : Prop :=
  match ev, init_stage c with
  | InitOutline id _, InitAwaitOutline => id = init_id c
  | InitText id _, InitAwaitText _ _ => id = init_id c
  | InitAudio id _, InitAwaitAudio _ _ _ => id = init_id c
  | InitClose id _, InitAwaitClose _ _ _ _ => id = init_id c
  | _, _ => False
  end.

Definition bg_awaits (c : BgCall) (ev : Event) : Prop :=
  match ev, bg_stage c with
  | BgText id _, BgAwaitText _ _ => id = bg_id c
  | BgAudio id _, BgAwaitAudio _ _ => id = bg_id c
  | BgClose id _, BgAwaitClose _ _ _ => id = bg_id c
  | _, _ => False
  end.

(** The awaited step fails: the [await] throws. *)
Definition throws (ev : Event) : Prop :=
  match ev with
  | BgText _ o | InitText _ o => fails o
  | BgAudio _ o | InitAudio _ o => fails o
  | InitOutline _ o => fails o
  | BgClose _ (Reject _) | InitClose _ (Reject _) => True
  | _ => False
  end.

(** The awaited step fails because its deadline elapsed. *)
Definition timesOut (ev : Event) : Prop :=
  match ev with
  | BgText _ DeadlineElapses | InitText _ DeadlineElapses => True
  | BgAudio _ DeadlineElapses | InitAudio _ DeadlineElapses => True
  | InitOutline _ DeadlineElapses => True
  | _ => False
  end.

(** The last [await] of an invocation resumes normally. *)
Definition completes (ev : Event) : Prop :=
  match ev with
  | BgClose _ (Resolve _) | InitClose _ (Resolve _) => True
  | _ => False
  end.

Definition friendlyTimeout : string :=
  "Story generation timed out. It might be that your journey is too long. Please try again.".

Definition genericFailure : string :=
  "Failed to start story stream. Please check your locations/connection and try again.".

(** ** One turn of the event loop, case by case *)

(** [Transition estimate a ev a']: the ways in which [step] takes [a] to
    [a'] on [ev], each with the facts its branch of the code has tested. *)
Inductive Transition (estimate : Z -> Z) (a : App) : Event -> App -> Prop :=
| T_ignored ev :
    Transition estimate a ev a
| T_launch s r c :
    story a = Some s -> route a = Some r -> isGeneratingRef a = false ->
    bg_id c = nextCall a ->
    bg_index c = Z.of_nat (List.length (segments s)) + 1 ->
    (exists beat previous, bg_stage c = BgAwaitText beat previous) ->
    Transition estimate a RunBufferingEffect
      (bumpNextCall
         (setBgCalls (bgCalls a ++ [c])
            (consoleWrite
               (ConsoleLog ("[Buffering] Starting generation for Segment "
                            ++ string_of_Z (bg_index c) ++ "..."))
               (setIsBackgroundGenerating true (setIsGeneratingRef true a)))))
| T_bgText c segmentData :
    find_bg (bg_id c) a = Some c ->
    (exists beat previous, bg_stage c = BgAwaitText beat previous) ->
    Transition estimate a (BgText (bg_id c) (OpSettles (Resolve segmentData)))
      (park_bg c (BgAwaitAudio segmentData (List.length (audioContexts a)))
         (setAudioContexts (audioContexts a ++ [CtxRunning]) a))
| T_bgAudio c segmentData tempCtx buf :
    find_bg (bg_id c) a = Some c ->
    bg_stage c = BgAwaitAudio segmentData tempCtx ->
    Transition estimate a (BgAudio (bg_id c) (OpSettles (Resolve buf)))
      (park_bg c (BgAwaitClose segmentData buf tempCtx) a)
| T_bgClose c segmentData buf tempCtx u :
    find_bg (bg_id c) a = Some c ->
    bg_stage c = BgAwaitClose segmentData buf tempCtx ->
    Transition estimate a (BgClose (bg_id c) (Resolve u))
      (bg_finally c
         (consoleWrite
            (ConsoleLog ("[Buffering] Segment " ++ string_of_Z (bg_index c)
                         ++ " ready."))
            (setStory (mergeSegment (bg_index c) segmentData buf)
               (closeAudioContext tempCtx a))))
| T_bgThrow c e ev :
    find_bg (bg_id c) a = Some c ->
    Transition estimate a ev (bg_catch c e a)
| T_submit details :
    Transition estimate a (RouteFound details)
      (handleGenerateStory estimate details a)
| T_initOutline c storyOutline :
    find_init (init_id c) a = Some c ->
    init_stage c = InitAwaitOutline ->
    Transition estimate a (InitOutline (init_id c) (OpSettles (Resolve storyOutline)))
      (park_init c
         (InitAwaitText storyOutline
            (beat_or storyOutline 0 (units "Begin the journey.")))
         (setLoadingMessage "Writing first chapter... 1 minute" a))
| T_initText c storyOutline beat seg1Data :
    find_init (init_id c) a = Some c ->
    init_stage c = InitAwaitText storyOutline beat ->
    Transition estimate a (InitText (init_id c) (OpSettles (Resolve seg1Data)))
      (park_init c
         (InitAwaitAudio storyOutline seg1Data (List.length (audioContexts a)))
         (setAudioContexts (audioContexts a ++ [CtxRunning])
            (setLoadingMessage "Preparing audio stream...30 seconds" a)))
| T_initAudio c storyOutline seg1Data tempCtx seg1Audio :
    find_init (init_id c) a = Some c ->
    init_stage c = InitAwaitAudio storyOutline seg1Data tempCtx ->
    Transition estimate a (InitAudio (init_id c) (OpSettles (Resolve seg1Audio)))
      (park_init c (InitAwaitClose storyOutline seg1Data seg1Audio tempCtx) a)
| T_initClose c storyOutline seg1Data seg1Audio tempCtx u :
    find_init (init_id c) a = Some c ->
    init_stage c = InitAwaitClose storyOutline seg1Data seg1Audio tempCtx ->
    Transition estimate a (InitClose (init_id c) (Resolve u))
      (drop_init (init_id c)
         (setAppState READY_TO_PLAY
            (setStory
               (fun _ => Some (mkAudioStory (init_total c) storyOutline
                                            [withAudio seg1Data seg1Audio]))
               (closeAudioContext tempCtx a))))
| T_initThrow c e ev :
    find_init (init_id c) a = Some c ->
    Transition estimate a ev (init_catch c e a)
| T_segmentChange i :
    Transition estimate a (SegmentChange i) (setCurrentPlayingIndex i a)
| T_reset :
    Transition estimate a ResetClicked (handleReset a).

(** ** What the invariants say about suspended invocations *)

(** The segment data an invocation holds carries the index it asked for. *)
Definition bg_data_ok (c : BgCall) : Prop :=
  match bg_stage c with
  | BgAwaitText _ _ => True
  | BgAwaitAudio segmentData _ => index segmentData = bg_index c
  | BgAwaitClose segmentData _ _ => index segmentData = bg_index c
  end.

Definition init_data_ok (c : InitCall) : Prop :=
  match init_stage c with
  | InitAwaitAudio _ seg1Data _ => index seg1Data = 1
  | InitAwaitClose _ seg1Data _ _ => index seg1Data = 1
  | _ => True
  end.

(** Sorted, duplicate-free timeline; faithful data in every invocation. *)
Definition orderly (a : App) : Prop :=
  match story a with
  | Some s => ascending (segments s)
  | None => True
  end
  /\ Forall bg_data_ok (bgCalls a)
  /\ Forall init_data_ok (initCalls a).

(** The flag is held exactly while one background invocation is suspended. *)
Definition singleFlight (a : App) : Prop :=
  List.length (bgCalls a) = if isGeneratingRef a then 1%nat else 0%nat.

(** The timeline and the invocations of one journey, with no leftovers of
    an earlier one. *)
Definition inStep (a : App) : Prop :=
  singleFlight a
  /\ Forall bg_data_ok (bgCalls a)
  /\ Forall init_data_ok (initCalls a)
  /\ match story a with
     | Some s =>
         contiguous (segments s)
         /\ Forall (fun c => bg_index c = Z.of_nat (List.length (segments s)) + 1)
                   (bgCalls a)
         /\ initCalls a = []
         /\ appState a = READY_TO_PLAY
     | None =>
         bgCalls a = []
         /\ (List.length (initCalls a) <= 1)%nat
         /\ (initCalls a <> [] -> appState a = GENERATING_INITIAL_SEGMENT)
     end.

(** The events of a journey whose every restart happens in quiet: offered
    by the page, answered by a faithful generator, and with no reset while
    a background generation is suspended. *)
Definition regular (a : App) (ev : Event) : bool :=
  offered a ev && faithful a ev && quietReset a ev.

(** ** Sample inputs for the concrete runs *)

Module Samples.

(** An estimate function in the spirit of the missing one: one segment
    per two minutes, at least one. *)
Definition estimate (seconds : Z) : Z := Z.max 1 ((seconds + 60) / 120).

Definition trip : RouteDetails :=
  mkRouteDetails "Town Hall" "Harbour" "3.1 km" "20 mins" 1200
                 WALKING "Kore" NOIR.

Definition beats : list JsString :=
  [units "Leaving"; units "The bridge"; units "Arrival"].

Definition chapter (i : Z) : Segment := mkSegment i (units "Rain fell.") None.

(** A successful initial generation run by invocation [id]. *)
Definition firstChapter (id : nat) : list Event :=
  [ RouteFound trip;
    InitOutline id (OpSettles (Resolve beats));
    InitText id (OpSettles (Resolve (chapter 1)));
    InitAudio id (OpSettles (Resolve 0%nat));
    InitClose id (Resolve tt) ].

(** A successful background generation of segment [i] by invocation [id]. *)
Definition nextChapter (id : nat) (i : Z) : list Event :=
  [ BgText id (OpSettles (Resolve (chapter i)));
    BgAudio id (OpSettles (Resolve 0%nat));
    BgClose id (Resolve tt) ].

(** The page right after the first chapter is ready, and its timeline. *)
Definition ready : App := run estimate initial (firstChapter 0).

Definition firstStory : AudioStory :=
  mkAudioStory 10 beats [withAudio (chapter 1) 0%nat].

(** Segment 3 is being generated when the listener ends the journey and
    starts a new one; the new journey's first chapter is ready and its
    effect has run while the old invocation is still suspended. *)
Definition restartedWhileGenerating : list Event :=
  firstChapter 0
  ++ [RunBufferingEffect] ++ nextChapter 1 2
  ++ [RunBufferingEffect; ResetClicked]
  ++ firstChapter 3
  ++ [RunBufferingEffect].

(** The effect has launched segment 2, which is awaiting its text. *)
Definition generating : App :=
  run estimate initial (firstChapter 0 ++ [RunBufferingEffect]).

Definition secondCall : BgCall :=
  mkBgCall 1 2 trip 10 (BgAwaitText (units "The bridge") (units "Rain fell.")).

(** The first await of the initial generation runs into its deadline. *)
Definition outlineTimesOut : list Event :=
  [ RouteFound trip; InitOutline 0 DeadlineElapses ].

(** Audio synthesis fails: in the initial generation, and in the
    background generation of segment 2. *)
Definition initialAudioFails : list Event :=
  [ RouteFound trip;
    InitOutline 0 (OpSettles (Resolve beats));
    InitText 0 (OpSettles (Resolve (chapter 1)));
    InitAudio 0 (OpSettles (Reject (Error "503"))) ].

Definition backgroundAudioFails : list Event :=
  firstChapter 0
  ++ [ RunBufferingEffect;
       BgText 1 (OpSettles (Resolve (chapter 2)));
       BgAudio 1 DeadlineElapses ].

(** ... and then the old invocation delivers segment 3. *)
Definition staleDelivery : list Event :=
  restartedWhileGenerating ++ nextChapter 2 3.

End Samples.

(** ** Build-time key selection ([vite.config.ts] lines 16-35) *)

(** Strings stand for their sequences of code units, here all below 256;
    among those, [String.prototype.trim] strips exactly these. *)
Definition isWhiteSpace (c : ascii) : bool :=
  let n := nat_of_ascii c in
  ((9 <=? n)%nat && (n <=? 13)%nat) || (n =? 32)%nat || (n =? 160)%nat.

Fixpoint trimStart (s : string) : string :=
  match s with
  | EmptyString => EmptyString
  | String c rest => if isWhiteSpace c then trimStart rest else s
  end.

Fixpoint trimEnd (s : string) : string :=
  match s with
  | EmptyString => EmptyString
  | String c rest =>
      match trimEnd rest with
      | EmptyString => if isWhiteSpace c then EmptyString else String c EmptyString
      | kept => String c kept
      end
  end.

(** [s.trim()] *)
Definition trim (s : string) : string := trimEnd (trimStart s).

(** [a || b] on values of type [string | undefined]: the empty string and
    [undefined] are falsy. *)
Definition orElse (a b : option string) : option string :=
  match a with
  | Some s => if (s =? "")%string then b else a
  | None => b
  end.

Module ViteConfig.

(** [cleanKey] (lines 16-22) *)
Definition cleanKey (key : option string) : option string :=
  match key with
  | None => None
  | Some key =>
      if (key =? "")%string then None
      else
        let k := trim key in
        if (k =? "")%string || (k =? "undefined")%string
           || (k =? "GEMINI_API_KEY")%string || (k =? "API_KEY")%string
           || includes k "YOUR_API_KEY"
        then None
        else Some k
  end.

(** The three variables the configuration reads, from [process.env] and
    from the record [loadEnv(mode, '.', '')] returned.  How [loadEnv] fills
    its record is Vite's business and is not modelled: both records are
    inputs. *)
Record Env : Type := mkEnv {
  GOOGLE_MAPS_API_KEY : option string;
  API_KEY : option string;
  GEMINI_API_KEY : option string
}.

(** Lines 26-27 *)
Definition mapsKey (processEnv env : Env) : option string :=
  orElse (cleanKey (GOOGLE_MAPS_API_KEY processEnv))
         (cleanKey (GOOGLE_MAPS_API_KEY env)).

(** Lines 29-32 *)
Definition genAIKey (processEnv env : Env) : option string :=
  orElse (orElse (orElse (cleanKey (API_KEY processEnv))
                         (cleanKey (GEMINI_API_KEY processEnv)))
                 (cleanKey (API_KEY env)))
         (cleanKey (GEMINI_API_KEY env)).

(** Line 35 *)
Definition finalMapsKey (processEnv env : Env) : option string :=
  orElse (mapsKey processEnv env) (genAIKey processEnv env).

End ViteConfig.

(** ** Google Maps bootstrap (App.tsx lines 49-81) *)

Module MapsBootstrap.

(** The [key.replace] of line 56, with the global pattern matching a double
    or a single quote: code units 34 and 39 are dropped. *)
Fixpoint removeQuotes (s : string) : string :=
  match s with
  | EmptyString => EmptyString
  | String c rest =>
      if (nat_of_ascii c =? 34)%nat || (nat_of_ascii c =? 39)%nat
      then removeQuotes rest
      else String c (removeQuotes rest)
  end.

(** [getMapsApiKey] (lines 52-57), given the two values of [process.env]. *)
Definition getMapsApiKey (mapsEnv apiEnv : option string) : option string :=
  match orElse mapsEnv apiEnv with
  | None => None
  | Some key =>
      if (key =? "")%string || (key =? "undefined")%string || (key =? "null")%string
      then None
      else Some (trim (removeQuotes key))
  end.

Definition SCRIPT_ID : string := "google-maps-script".

(** An element of the document, as far as the effect looks at it. *)
Record Element : Type := mkElement {
  el_id : string;
  el_src : string;
  el_async : bool;
  el_defer : bool
}.

Record Page : Type := mkPage {
  elements : list Element;       (* the document, in order *)
  googleMaps : bool;             (* [window.google?.maps] is there *)
  scriptError : option string;
  warnings : list string;        (* [console.warn] *)
  authFailureHook : bool         (* [window.gm_authFailure] is installed *)
}.

Definition scriptSrc (apiKey : string) : string :=
  ("https://maps.googleapis.com/maps/api/js?key=" ++ apiKey
   ++ "&loading=async&v=weekly&libraries=places")%string.

(** [document.getElementById(id)] finds something. *)
Definition hasElement (id : string) (p : Page) : bool :=
  existsb (fun e => (el_id e =? id)%string) (elements p).

(** The effect of lines 49-81. *)
Definition bootstrapEffect (mapsEnv apiEnv : option string) (p : Page) : Page :=
  match getMapsApiKey mapsEnv apiEnv with
  | None =>
      mkPage (elements p) (googleMaps p)
             (Some "API Key is missing. Maps functionality will be limited.")
             (warnings p ++ ["Critical: API Key for Maps is missing or 'undefined'."])
             (authFailureHook p)
  | Some apiKey =>
      if (apiKey =? "")%string then
        mkPage (elements p) (googleMaps p)
               (Some "API Key is missing. Maps functionality will be limited.")
               (warnings p ++ ["Critical: API Key for Maps is missing or 'undefined'."])
               (authFailureHook p)
      else if hasElement SCRIPT_ID p || googleMaps p then p
      else
        mkPage (elements p ++ [mkElement SCRIPT_ID (scriptSrc apiKey) true true])
               (googleMaps p) (scriptError p) (warnings p) true
  end.

(** The number of elements carrying the script's id. *)
Definition scriptCount (p : Page) : nat :=
  List.length (filter (fun e => (el_id e =? SCRIPT_ID)%string) (elements p)).

End MapsBootstrap.

(** ** The planner's button and error display (RoutePlanner.tsx) *)

Module PlannerView.

(** [isLocked] (line 215) *)
Definition isLocked (appState : AppState) : bool :=
  AppState_ltb ROUTE_CONFIRMED appState.

(** The [disabled] attribute of the button (line 359). *)
Definition buttonDisabled (appState : AppState) (p : RoutePlanner.Planner) : bool :=
  RoutePlanner.isLoading p || isLocked appState
  || (RoutePlanner.startAddress p =? "")%string
  || (RoutePlanner.endAddress p =? "")%string.

(** The effect of lines 56-60: a truthy [externalError] is shown. *)
Definition externalErrorEffect (externalError : option string)
           (p : RoutePlanner.Planner) : RoutePlanner.Planner :=
  match externalError with
  | Some e => if (e =? "")%string then p else RoutePlanner.setError (Some e) p
  | None => p
  end.

End PlannerView.

(** ** More vocabulary *)

(** The event ends the journey or creates a timeline. *)
Definition replacesTimeline (ev : Event) : Prop :=
  match ev with
  | ResetClicked => True
  | InitClose _ (Resolve _) => True
  | _ => False
  end.

(** The two flags of the buffering engine agree. *)
Definition flagsAgree (a : App) : Prop :=
  isBackgroundGenerating a = isGeneratingRef a.

(** What the phase says about the rest of the page. *)
Definition phaseShape (a : App) : Prop :=
  match appState a with
  | PLANNING => story a = None /\ initCalls a = []
  | ROUTE_CONFIRMED => False
  | GENERATING_INITIAL_SEGMENT =>
      story a = None /\ route a <> None /\ List.length (initCalls a) = 1%nat
  | READY_TO_PLAY => story a <> None /\ route a <> None /\ initCalls a = []
  end.

(** The timeline has not outgrown its estimate, and a suspended background
    generation was started below it. *)
Definition withinEstimate (a : App) : Prop :=
  match story a with
  | Some s =>
      Z.of_nat (List.length (segments s)) <= Z.max 1 (totalSegmentsEstimate s)
      /\ (bgCalls a <> [] ->
          Z.of_nat (List.length (segments s)) < totalSegmentsEstimate s)
  | None => True
  end.

(** What the timer of a guarded call can look like. *)
Definition guardShape {A : Type} (g : TimeoutGuard.Guard A) : Prop :=
  match TimeoutGuard.timer g with
  | TimeoutGuard.TimerPending =>
      TimeoutGuard.clearCalls g = 0%nat
      /\ ((TimeoutGuard.raced g = None /\ TimeoutGuard.opSettled g = false)
          \/ (exists e, TimeoutGuard.raced g = Some (Reject e)
                        /\ TimeoutGuard.opSettled g = true))
  | TimeoutGuard.TimerCleared =>
      TimeoutGuard.clearCalls g = 1%nat
      /\ TimeoutGuard.opSettled g = true
      /\ exists v, TimeoutGuard.raced g = Some (Resolve v)
  | TimeoutGuard.TimerFired =>
      (TimeoutGuard.clearCalls g <= 1)%nat
      /\ (TimeoutGuard.opSettled g = false -> TimeoutGuard.clearCalls g = 0%nat)
      /\ TimeoutGuard.raced g <> None
  end.

(** The value the awaited step of [handleGenerateStory] throws when [ev]
    makes it throw: the operation's rejection, or the error of the timeout
    guard with the message given at lines 152, 160 and 168. *)
Definition init_thrown (ev : Event) : option JsError :=
  match ev with
  | InitOutline _ (OpSettles (Reject e)) => Some e
  | InitOutline _ DeadlineElapses =>
      Some (Error "Story outline generation timed out")
  | InitText _ (OpSettles (Reject e)) => Some e
  | InitText _ DeadlineElapses =>
      Some (Error "Initial text generation timed out")
  | InitAudio _ (OpSettles (Reject e)) => Some e
  | InitAudio _ DeadlineElapses =>
      Some (Error "Initial audio generation timed out")
  | InitClose _ (Reject e) => Some e
  | _ => None
  end.

(** While an initial generation is suspended, [route] holds its details. *)
Definition routeOfAttempt (a : App) : Prop :=
  forall c, In c (initCalls a) -> route a = Some (init_details c).

(** The invocation numbered [n], as long as it is suspended, is the one
    that was started with [details]. *)
Definition attemptOf (n : nat) (details : RouteDetails) (a : App) : Prop :=
  (n < nextCall a)%nat
  /\ forall c, In c (initCalls a) -> init_id c = n -> init_details c = details.

(** ** More sample inputs *)

Module MoreSamples.

(** The outline request is rejected with no reason at all. *)
Definition outlineRejectsBare : list Event :=
  [ RouteFound Samples.trip; InitOutline 0 (OpSettles (Reject ThrownNullish)) ].

(** The first attempt is waiting for its audio. *)
Definition awaitingAudio : list Event :=
  [ InitOutline 0 (OpSettles (Resolve Samples.beats));
    InitText 0 (OpSettles (Resolve (Samples.chapter 1))) ].

Definition audioCall : InitCall :=
  mkInitCall 0 Samples.trip 10
             (InitAwaitAudio Samples.beats (Samples.chapter 1) 0%nat).



End MoreSamples.

(** * Properties *)

(** ** The trigger evaluation *)

Lemma bufferingEffect_below_ready (a : App) :
  AppState_ltb (appState a) READY_TO_PLAY = true -> bufferingEffect a = a.
Proof.
  intros H. unfold bufferingEffect.
  destruct (story a); [destruct (route a) |]; try reflexivity.
  now rewrite H.
Qed.

Lemma ready_not_below (a : App) :
  AppState_leb READY_TO_PLAY (appState a) = true ->
  AppState_ltb (appState a) READY_TO_PLAY = false.
Proof.
  unfold AppState_leb, AppState_ltb. intros H.
  apply Z.leb_le in H. apply Z.ltb_ge. exact H.
Qed.

Lemma generateNextSegment_held (i : Z) (a : App) :
  isGeneratingRef a = true -> generateNextSegment i a = a.
Proof.
  intros H. unfold generateNextSegment.
  destruct (route a); [destruct (story a) |]; try reflexivity.
  now rewrite H.
Qed.

Lemma generateNextSegment_free (i : Z) (a : App) (s : AudioStory) (r : RouteDetails) :
  story a = Some s -> route a = Some r -> isGeneratingRef a = false ->
  exists c, generateNextSegment i a
            = bumpNextCall
                (setBgCalls (bgCalls a ++ [c])
                   (consoleWrite
                      (ConsoleLog ("[Buffering] Starting generation for Segment "
                                   ++ string_of_Z i ++ "..."))
                      (setIsBackgroundGenerating true (setIsGeneratingRef true a))))
            /\ bg_id c = nextCall a /\ bg_index c = i /\ bg_route c = r
            /\ bg_total c = totalSegmentsEstimate s
            /\ exists beat previous, bg_stage c = BgAwaitText beat previous.
Proof.
  intros Hs Hr Hfree. unfold generateNextSegment. rewrite Hs, Hr, Hfree.
  eexists. split; [reflexivity |]. simpl. repeat split; eauto.
Qed.

Lemma bufferingEffect_held (a : App) :
  isGeneratingRef a = true -> bufferingEffect a = a.
Proof.
  intros H. unfold bufferingEffect.
  destruct (story a); [destruct (route a) |]; try reflexivity.
  destruct (AppState_ltb _ _); [reflexivity |].
  rewrite H, andb_false_r. reflexivity.
Qed.

Lemma bufferingEffect_due (a : App) (s : AudioStory) (r : RouteDetails) :
  story a = Some s -> route a = Some r ->
  AppState_leb READY_TO_PLAY (appState a) = true ->
  Z.of_nat (List.length (segments s)) < currentPlayingIndex a + 3 ->
  Z.of_nat (List.length (segments s)) < totalSegmentsEstimate s ->
  isGeneratingRef a = false ->
  launches a (Z.of_nat (List.length (segments s)) + 1).
Proof.
  intros Hs Hr Hphase H1 H2 H3. apply ready_not_below in Hphase.
  unfold launches, bufferingEffect. rewrite Hs, Hr, Hphase.
  apply Z.ltb_lt in H1. apply Z.ltb_lt in H2. rewrite H1, H2, H3. simpl.
  destruct (generateNextSegment_free
              (Z.of_nat (List.length (segments s)) + 1) a s r Hs Hr H3)
    as (c & -> & _ & Hi & _).
  exists c. simpl. auto.
Qed.

(** C1: with a timeline and a route present and the phase at least
    READY_TO_PLAY, the effect launches the generation of segment
    [segments.length + 1] exactly when [segments.length] is below
    [currentPlayingIndex + 3], below [totalSegmentsEstimate], and the
    single-flight flag is free; otherwise it changes nothing.  In particular
    nothing is launched once [segments.length] equals the estimate, whatever
    the playback position, and nothing happens below READY_TO_PLAY. *)
Theorem trigger_evaluation (a : App) (s : AudioStory) (r : RouteDetails) :
  story a = Some s -> route a = Some r ->
  let n := Z.of_nat (List.length (segments s)) in
  let due := n < currentPlayingIndex a + 3
             /\ n < totalSegmentsEstimate s
             /\ isGeneratingRef a = false in
  (AppState_leb READY_TO_PLAY (appState a) = true ->
     (launches a (n + 1) <-> due)
     /\ (forall i, launches a i -> i = n + 1)
     /\ (~ due -> bufferingEffect a = a)
     /\ (n = totalSegmentsEstimate s -> bufferingEffect a = a))
  /\ (AppState_ltb (appState a) READY_TO_PLAY = true -> bufferingEffect a = a).
Proof.
  intros Hs Hr n due. split; [| apply bufferingEffect_below_ready].
  intros Hready. pose proof (ready_not_below a Hready) as Hphase.
  assert (Hidle : ~ due -> bufferingEffect a = a).
  { intros Hn. unfold bufferingEffect. rewrite Hs, Hr, Hphase. fold n.
    destruct ((n <? currentPlayingIndex a + 3)
              && (n <? totalSegmentsEstimate s)
              && negb (isGeneratingRef a)) eqn:G; [| reflexivity].
    exfalso. apply Hn.
    apply andb_true_iff in G as [G G3]. apply andb_true_iff in G as [G1 G2].
    apply Z.ltb_lt in G1. apply Z.ltb_lt in G2. apply negb_true_iff in G3.
    unfold due. auto. }
  assert (Hgo : due -> launches a (n + 1)).
  { intros (H1 & H2 & H3). now apply (bufferingEffect_due a s r). }
  assert (Hno : forall i, launches a i -> due).
  { intros i (c & Hc & _).
    destruct (Z.ltb_spec n (currentPlayingIndex a + 3)) as [H1 | H1];
      [destruct (Z.ltb_spec n (totalSegmentsEstimate s)) as [H2 | H2];
       [destruct (isGeneratingRef a) eqn:H3 |] |];
      try (unfold due; now auto);
      (rewrite Hidle in Hc by (unfold due; intros (? & ? & ?); (lia || congruence));
       apply (f_equal (@List.length _)) in Hc; rewrite length_app in Hc;
       simpl in Hc; lia). }
  split; [split; [apply (Hno (n + 1)) | exact Hgo] |].
  split; [| split].
  - intros i Hi. pose proof (Hgo (Hno i Hi)) as (c' & Hc' & Hi' & _).
    destruct Hi as (c & Hc & Hic & _). rewrite Hc in Hc'.
    apply app_inv_head in Hc'. congruence.
  - exact Hidle.
  - intros Heq. apply Hidle. unfold due. lia.
Qed.

Lemma trigger_evaluation_witness :
  story Samples.ready = Some Samples.firstStory
  /\ route Samples.ready = Some Samples.trip
  /\ launches Samples.ready 2.
Proof.
  split; [reflexivity |]. split; [reflexivity |].
  apply (proj1 (proj1 (trigger_evaluation Samples.ready Samples.firstStory
                         Samples.trip eq_refl eq_refl)
                      eq_refl)).
  simpl. repeat split; (lia || reflexivity).
Defined.

(** ** Route confirmation *)

(** C9: the directions callback for a resolved route sets the too-long
    error and does not call [onRouteFound] exactly when the leg's duration
    exceeds 14400 seconds; a resolved route of at most 14400 seconds is
    handed to [onRouteFound], which is [handleGenerateStory] and starts the
    initial generation.  An unresolved route never produces the too-long
    error. *)
Theorem route_duration_limit
        (clicked : RoutePlanner.Planner) (leg : RoutePlanner.Leg)
        (p : RoutePlanner.Planner) :
  (RoutePlanner.directionsCallback clicked (RoutePlanner.StatusOK leg) p
   = (RoutePlanner.setError (Some RoutePlanner.tooLong)
        (RoutePlanner.setIsLoading false p), None)
   <-> 14400 < RoutePlanner.duration_value leg)
  /\ (RoutePlanner.duration_value leg <= 14400 ->
      RoutePlanner.directionsCallback clicked (RoutePlanner.StatusOK leg) p
      = (RoutePlanner.setIsLoading false p,
         Some (mkRouteDetails (RoutePlanner.start_address leg)
                 (RoutePlanner.end_address leg) (RoutePlanner.distance_text leg)
                 (RoutePlanner.duration_text leg) (RoutePlanner.duration_value leg)
                 (RoutePlanner.travelMode clicked)
                 (RoutePlanner.selectedVoice clicked)
                 (RoutePlanner.selectedStyle clicked))))
  /\ (forall d, (forall l, d <> RoutePlanner.StatusOK l) ->
      snd (RoutePlanner.directionsCallback clicked d p) = None
      /\ RoutePlanner.error (fst (RoutePlanner.directionsCallback clicked d p))
         <> Some RoutePlanner.tooLong)
  /\ (forall estimate details a,
      appState (step estimate a (RouteFound details)) = GENERATING_INITIAL_SEGMENT
      /\ exists c, initCalls (step estimate a (RouteFound details))
                   = initCalls a ++ [c]
                   /\ init_details c = details).
Proof.
  unfold RoutePlanner.directionsCallback.
  split; [| split; [| split]].
  - destruct (Z.ltb_spec 14400 (RoutePlanner.duration_value leg)) as [H | H].
    + split; [intros _; exact H | reflexivity].
    + split; [discriminate | lia].
  - intros H. apply Z.ltb_ge in H. now rewrite H.
  - intros d Hd. destruct d as [l | |]; simpl.
    + now elim (Hd l).
    + split; [reflexivity |].
      destruct (RoutePlanner.travelMode clicked); simpl; discriminate.
    + split; [reflexivity | discriminate].
  - intros estimate details a. simpl. unfold handleGenerateStory. simpl.
    split; [reflexivity |]. eexists. split; reflexivity.
Qed.

Lemma route_duration_limit_witness :
  RoutePlanner.duration_value (RoutePlanner.mkLeg "A" "B" "3.1 km" "20 mins" 1200)
  <= 14400
  /\ RoutePlanner.directionsCallback
       (RoutePlanner.mkPlanner "a" "b" WALKING NOIR "Kore" None false)
       (RoutePlanner.StatusOK (RoutePlanner.mkLeg "A" "B" "3.1 km" "20 mins" 1200))
       (RoutePlanner.mkPlanner "a" "b" DRIVING FANTASY "Kore" None true)
     = (RoutePlanner.mkPlanner "a" "b" DRIVING FANTASY "Kore" None false,
        Some (mkRouteDetails "A" "B" "3.1 km" "20 mins" 1200 WALKING "Kore" NOIR)).
Proof.
  split; [simpl; lia |].
  apply (proj1 (proj2 (route_duration_limit
                         (RoutePlanner.mkPlanner "a" "b" WALKING NOIR "Kore" None false)
                         (RoutePlanner.mkLeg "A" "B" "3.1 km" "20 mins" 1200)
                         (RoutePlanner.mkPlanner "a" "b" DRIVING FANTASY "Kore" None true)))).
  simpl. lia.
Defined.

(** ** The initial generation *)

Section InitialGeneration.

Variable estimate : Z -> Z.

(** What the [catch] block leaves behind. *)
Lemma init_catch_effect (c : InitCall) (e : JsError) (a : App) :
  let a' := init_catch c e a in
  appState a' = PLANNING
  /\ generationError a'
     = match failureMessage e with
       | Some msg => Some msg
       | None => generationError a
       end
  /\ route a' = route a
  /\ story a' = story a
  /\ currentPlayingIndex a' = currentPlayingIndex a
  /\ isGeneratingRef a' = isGeneratingRef a
  /\ bgCalls a' = bgCalls a
  /\ initCalls a'
     = filter (fun c' => negb (Nat.eqb (init_id c') (init_id c))) (initCalls a).
Proof. simpl. repeat split. Qed.

(** A throwing await of [handleGenerateStory] runs the [catch] block with
    the value the await throws. *)
Lemma init_throw_caught (a : App) (c : InitCall) (ev : Event) :
  find_init (init_id c) a = Some c -> init_awaits c ev -> throws ev ->
  exists e, init_thrown ev = Some e /\ step estimate a ev = init_catch c e a.
Proof.
  intros Hfind Haw Hth.
  destruct ev as [| | | | | id o | id o | id o | id s | |];
    simpl in Haw; try contradiction;
    destruct (init_stage c) eqn:Hst; try contradiction; subst id;
    simpl; rewrite Hfind, Hst.
  - destruct o as [[v | e] |]; simpl in Hth; try contradiction;
      eexists; split; reflexivity.
  - destruct o as [[v | e] |]; simpl in Hth; try contradiction;
      eexists; split; reflexivity.
  - destruct o as [[v | e] |]; simpl in Hth; try contradiction;
      eexists; split; reflexivity.
  - destruct s as [v | e]; simpl in Hth; try contradiction.
    eexists; split; reflexivity.
Qed.

(** An elapsed deadline throws an error whose message mentions it. *)
Lemma init_thrown_timeout (ev : Event) (e : JsError) :
  timesOut ev -> init_thrown ev = Some e ->
  failureMessage e = Some friendlyTimeout.
Proof.
  destruct ev as [| | | | | id o | id o | id o | id s | |];
    simpl; try contradiction;
    destruct o as [[v | e0] |]; try contradiction;
    intros _ [= <-]; reflexivity.
Qed.

(** The message for an error object with a string message. *)
Lemma failureMessage_string (m : string) :
  failureMessage (Thrown (MsgString m))
  = Some (if includes m "timed out" || includes m "timeout"
          then friendlyTimeout else genericFailure).
Proof.
  unfold failureMessage. destruct m as [| ch m]; [reflexivity |].
  change (negb (String ch m =? "")%string) with true.
  rewrite andb_true_l. now destruct (_ || _).
Qed.

End InitialGeneration.

(** C7 fails on the code when an await of the initial generation rejects
    with no reason ([undefined]): the phase goes back to PLANNING, but
    reading [error.message] throws inside the [catch], the invocation ends
    there, and [generationError] stays empty: no error is surfaced. *)
Theorem rejection_without_reason_shows_no_error :
  let a := run Samples.estimate initial MoreSamples.outlineRejectsBare in
  appState a = PLANNING
  /\ initCalls a = []
  /\ generationError a = None
  /\ PlannerView.externalErrorEffect (generationError a)
       (RoutePlanner.mkPlanner "a" "b" WALKING NOIR "Kore" None false)
     = RoutePlanner.mkPlanner "a" "b" WALKING NOIR "Kore" None false.
Proof. vm_compute. repeat split. Qed.

(** C8 fails as stated: after the outline request of a first attempt times
    out, and likewise after the audio synthesis of a first attempt fails,
    the phase is back at PLANNING but [route] still holds the details
    captured at submission. *)
Lemma failed_attempt_keeps_route :
  (let a := run Samples.estimate initial Samples.outlineTimesOut in
   appState a = PLANNING /\ initCalls a = [] /\ route a = Some Samples.trip
   /\ route a <> None)
  /\ (let a := run Samples.estimate initial Samples.initialAudioFails in
      appState a = PLANNING /\ initCalls a = [] /\ route a = Some Samples.trip
      /\ route a <> None).
Proof. vm_compute. repeat split; discriminate. Qed.

(** ** Background failures *)

Section BackgroundGeneration.

Variable estimate : Z -> Z.

(** What [catch] and [finally] of [generateNextSegment] leave behind. *)
Lemma bg_catch_effect (c : BgCall) (e : JsError) (a : App) :
  let a' := bg_catch c e a in
  story a' = story a
  /\ route a' = route a
  /\ appState a' = appState a
  /\ currentPlayingIndex a' = currentPlayingIndex a
  /\ generationError a' = generationError a
  /\ isGeneratingRef a' = false
  /\ isBackgroundGenerating a' = false
  /\ console a'
     = console a
       ++ [ConsoleError ("Failed to generate segment " ++ string_of_Z (bg_index c)) e]
  /\ bgCalls a' = filter (fun c' => negb (Nat.eqb (bg_id c') (bg_id c))) (bgCalls a)
  /\ initCalls a' = initCalls a
  /\ audioContexts a' = audioContexts a.
Proof. simpl. repeat split. Qed.

(** A throwing await of [generateNextSegment] runs [catch] and [finally]. *)
Lemma bg_throw_caught (a : App) (c : BgCall) (ev : Event) :
  find_bg (bg_id c) a = Some c -> bg_awaits c ev -> throws ev ->
  exists e, step estimate a ev = bg_catch c e a.
Proof.
  intros Hfind Haw Hth.
  destruct ev as [| id o | id o | id s | | | | | | |];
    simpl in Haw; try contradiction;
    destruct (bg_stage c) eqn:Hst; try contradiction; subst id;
    simpl; rewrite Hfind, Hst.
  - destruct o as [[v | e] |]; simpl in Hth; try contradiction;
      eexists; reflexivity.
  - destruct o as [[v | e] |]; simpl in Hth; try contradiction;
      eexists; reflexivity.
  - destruct s as [v | e]; simpl in Hth; try contradiction.
    eexists; reflexivity.
Qed.

End BackgroundGeneration.

(** C6: when an await of a background generation throws, the timeline is
    left as it was, the single-flight flag is released, nothing reaches
    [generationError] (the error goes to [console.error] only), and no new
    invocation is started; an effect run afterwards, under the same playback
    position, launches [segments.length + 1] again. *)
Theorem background_failure
        (estimate : Z -> Z) (a : App) (c : BgCall) (ev : Event) :
  find_bg (bg_id c) a = Some c -> bg_awaits c ev -> throws ev ->
  let a' := step estimate a ev in
  story a' = story a
  /\ isGeneratingRef a' = false
  /\ generationError a' = generationError a
  /\ (exists e, console a'
                = console a
                  ++ [ConsoleError
                        ("Failed to generate segment " ++ string_of_Z (bg_index c)) e])
  /\ bgCalls a' = filter (fun c' => negb (Nat.eqb (bg_id c') (bg_id c))) (bgCalls a)
  /\ initCalls a' = initCalls a
  /\ (forall s r,
        story a = Some s -> route a = Some r ->
        AppState_leb READY_TO_PLAY (appState a) = true ->
        Z.of_nat (List.length (segments s)) < currentPlayingIndex a + 3 ->
        Z.of_nat (List.length (segments s)) < totalSegmentsEstimate s ->
        launches a' (Z.of_nat (List.length (segments s)) + 1)).
Proof.
  intros Hfind Haw Hth a'.
  destruct (bg_throw_caught estimate a c ev Hfind Haw Hth) as (e & He).
  subst a'. rewrite He.
  destruct (bg_catch_effect c e a)
    as (H1 & H2 & H3 & H4 & H5 & H6 & H7 & H8 & H9 & H10 & H11).
  repeat (split; [assumption || (exists e; assumption) |]).
  intros s r Hs Hr Hphase Hn Ht.
  apply (bufferingEffect_due (bg_catch c e a) s r); congruence.
Qed.

Lemma background_failure_witness :
  find_bg 1 Samples.generating = Some Samples.secondCall
  /\ story (step Samples.estimate Samples.generating (BgText 1 DeadlineElapses))
     = story Samples.generating.
Proof.
  split; [reflexivity |].
  exact (proj1 (background_failure Samples.estimate Samples.generating
                  Samples.secondCall (BgText 1 DeadlineElapses)
                  eq_refl eq_refl I)).
Defined.

(** ** The timeout guard *)

Section Guard.

Context {A : Type}.
Variable errorMsg : string.

(** Once the race has settled, nothing changes its settlement. *)
Lemma raced_settled (os : list (Occurrence A)) (g : Guard A) (s : Settle A) :
  raced g = Some s -> raced (fold_left (TimeoutGuard.step errorMsg) os g) = Some s.
Proof.
  revert g. induction os as [| o os IH]; intros g Hg; [exact Hg |].
  simpl. apply IH.
  destruct o as [[v | e] |]; simpl.
  - destruct (opSettled g); [exact Hg |]. simpl. now rewrite Hg.
  - destruct (opSettled g); [exact Hg |]. simpl. now rewrite Hg.
  - destruct (timer g); try exact Hg. simpl. now rewrite Hg.
Qed.

(** The awaited result is the settlement of whatever happens first: the
    operation's own settlement, or the rejection with the caller's message. *)
Lemma withTimeout_first (o : Occurrence A) (os : list (Occurrence A)) :
  raced (TimeoutGuard.run errorMsg (o :: os)) = Some (withTimeout errorMsg o).
Proof.
  unfold TimeoutGuard.run. simpl. apply raced_settled.
  destruct o as [[v | e] |]; reflexivity.
Qed.

(** A cleared timer stays cleared and the operation's handler runs once. *)
Lemma cleared_stays (os : list (Occurrence A)) (g : Guard A) :
  timer g = TimerCleared -> opSettled g = true ->
  timer (fold_left (TimeoutGuard.step errorMsg) os g) = TimerCleared
  /\ clearCalls (fold_left (TimeoutGuard.step errorMsg) os g) = clearCalls g.
Proof.
  revert g. induction os as [| o os IH]; intros g Ht Hs; [now split |].
  simpl.
  assert (TimeoutGuard.step errorMsg g o = g) as ->; [| now apply IH].
  destruct o as [s |]; simpl; [now rewrite Hs | now rewrite Ht].
Qed.

(** Success before the deadline: the value is returned, the timer is
    cancelled by exactly one [clearTimeout] and never fires. *)
Lemma withTimeout_success (v : A) (os : list (Occurrence A)) :
  let g := TimeoutGuard.run errorMsg (OpSettles (Resolve v) :: os) in
  raced g = Some (Resolve v) /\ timer g = TimerCleared /\ clearCalls g = 1%nat.
Proof.
  simpl. split; [apply withTimeout_first |].
  unfold TimeoutGuard.run. simpl. now apply cleared_stays.
Qed.

(** Deadline first: the wait fails with exactly the caller's message. *)
Lemma withTimeout_deadline (os : list (Occurrence A)) :
  raced (TimeoutGuard.run errorMsg (DeadlineElapses :: os))
  = Some (Reject (Error errorMsg)).
Proof. apply withTimeout_first. Qed.

End Guard.

(** C4 fails on the code when the operation rejects before the deadline:
    the rejection is passed on, but [clearTimeout] is never called and the
    timer stays armed; it fires later, into an already settled race. *)
Theorem rejection_leaves_timer_armed
        (A : Type) (errorMsg : string) (e : JsError) :
  let g := TimeoutGuard.run errorMsg [OpSettles (A := A) (Reject e)] in
  raced g = Some (Reject e)
  /\ timer g = TimerPending
  /\ clearCalls g = 0%nat
  /\ timer (TimeoutGuard.step errorMsg g DeadlineElapses) = TimerFired
  /\ raced (TimeoutGuard.step errorMsg g DeadlineElapses) = Some (Reject e).
Proof. simpl. repeat split. Qed.

(** ** The audio context *)

(** C5 fails on the code when audio synthesis fails: the invocation is over
    ([bgCalls] and [initCalls] are empty) and the context it created is
    still running, in the background generation and in the initial one. *)
Theorem audio_failure_leaves_context_open :
  (let a := run Samples.estimate initial Samples.backgroundAudioFails in
   bgCalls a = [] /\ initCalls a = []
   /\ audioContexts a = [CtxClosed; CtxRunning])
  /\ (let a := run Samples.estimate initial Samples.initialAudioFails in
      bgCalls a = [] /\ initCalls a = []
      /\ audioContexts a = [CtxRunning]).
Proof. vm_compute. repeat split. Qed.

(** ** Every turn of the event loop is one of the transitions *)

Lemma find_bg_some (id : nat) (a : App) (c : BgCall) :
  find_bg id a = Some c -> In c (bgCalls a) /\ bg_id c = id.
Proof.
  unfold find_bg. intros H. apply find_some in H as [Hin Hid].
  split; [exact Hin | now apply Nat.eqb_eq].
Qed.

Lemma find_init_some (id : nat) (a : App) (c : InitCall) :
  find_init id a = Some c -> In c (initCalls a) /\ init_id c = id.
Proof.
  unfold find_init. intros H. apply find_some in H as [Hin Hid].
  split; [exact Hin | now apply Nat.eqb_eq].
Qed.

Lemma bufferingEffect_cases (a : App) :
  bufferingEffect a = a
  \/ exists s r c,
      story a = Some s /\ route a = Some r /\ isGeneratingRef a = false
      /\ bg_id c = nextCall a
      /\ bg_index c = Z.of_nat (List.length (segments s)) + 1
      /\ (exists beat previous, bg_stage c = BgAwaitText beat previous)
      /\ bufferingEffect a
         = bumpNextCall
             (setBgCalls (bgCalls a ++ [c])
                (consoleWrite
                   (ConsoleLog ("[Buffering] Starting generation for Segment "
                                ++ string_of_Z (bg_index c) ++ "..."))
                   (setIsBackgroundGenerating true (setIsGeneratingRef true a)))).
Proof.
  unfold bufferingEffect.
  destruct (story a) as [s |] eqn:Hs; [| now left].
  destruct (route a) as [r |] eqn:Hr; [| now left].
  destruct (AppState_ltb _ _); [now left |].
  destruct (isGeneratingRef a) eqn:Hl;
    [rewrite andb_false_r; now left |].
  destruct (_ && _ && _); [| now left].
  right.
  destruct (generateNextSegment_free
              (Z.of_nat (List.length (segments s)) + 1) a s r Hs Hr Hl)
    as (c & Hc & Hid & Hi & _ & _ & Hst).
  exists s, r, c. rewrite Hi. repeat split; auto.
Qed.

Lemma step_transition (estimate : Z -> Z) (a : App) (ev : Event) :
  Transition estimate a ev (step estimate a ev).
Proof.
  destruct ev as [| id o | id o | id s | details | id o | id o | id o | id s | i |];
    simpl.
  - destruct (bufferingEffect_cases a)
      as [-> | (s & r & c & Hs & Hr & Hl & Hid & Hi & Hst & ->)].
    + constructor.
    + now apply (T_launch estimate a s r c).
  - destruct (find_bg id a) as [c |] eqn:Hf; [| constructor].
    destruct (find_bg_some _ _ _ Hf) as [_ <-].
    destruct (bg_stage c) eqn:Hst; try constructor.
    unfold bgText. destruct o as [[v | e] |]; simpl.
    + apply T_bgText; eauto.
    + now apply T_bgThrow.
    + now apply T_bgThrow.
  - destruct (find_bg id a) as [c |] eqn:Hf; [| constructor].
    destruct (find_bg_some _ _ _ Hf) as [_ <-].
    destruct (bg_stage c) eqn:Hst; try constructor.
    unfold bgAudio. destruct o as [[v | e] |]; simpl.
    + now apply T_bgAudio.
    + now apply T_bgThrow.
    + now apply T_bgThrow.
  - destruct (find_bg id a) as [c |] eqn:Hf; [| constructor].
    destruct (find_bg_some _ _ _ Hf) as [_ <-].
    destruct (bg_stage c) eqn:Hst; try constructor.
    unfold bgClose. destruct s as [v | e].
    + now apply T_bgClose.
    + now apply T_bgThrow.
  - constructor.
  - destruct (find_init id a) as [c |] eqn:Hf; [| constructor].
    destruct (find_init_some _ _ _ Hf) as [_ <-].
    destruct (init_stage c) eqn:Hst; try constructor.
    unfold initOutline. destruct o as [[v | e] |]; simpl.
    + now apply T_initOutline.
    + now apply T_initThrow.
    + now apply T_initThrow.
  - destruct (find_init id a) as [c |] eqn:Hf; [| constructor].
    destruct (find_init_some _ _ _ Hf) as [_ <-].
    destruct (init_stage c) eqn:Hst; try constructor.
    unfold initText. destruct o as [[v | e] |]; simpl.
    + now apply (T_initText estimate a c storyOutline firstOutlineBeat).
    + now apply T_initThrow.
    + now apply T_initThrow.
  - destruct (find_init id a) as [c |] eqn:Hf; [| constructor].
    destruct (find_init_some _ _ _ Hf) as [_ <-].
    destruct (init_stage c) eqn:Hst; try constructor.
    unfold initAudio. destruct o as [[v | e] |]; simpl.
    + now apply T_initAudio.
    + now apply T_initThrow.
    + now apply T_initThrow.
  - destruct (find_init id a) as [c |] eqn:Hf; [| constructor].
    destruct (find_init_some _ _ _ Hf) as [_ <-].
    destruct (init_stage c) eqn:Hst; try constructor.
    unfold initClose. destruct s as [v | e].
    + now apply T_initClose.
    + now apply T_initThrow.
  - constructor.
  - constructor.
Qed.

(** ** Sorting and merging *)

Lemma insert_by_index_perm (x : Segment) (l : list Segment) :
  Permutation (insert_by_index x l) (x :: l).
Proof.
  induction l as [| y l IH]; simpl; [reflexivity |].
  destruct (index x <=? index y); [reflexivity |].
  rewrite IH. apply perm_swap.
Qed.

Lemma sort_by_index_perm (l : list Segment) :
  Permutation (sort_by_index l) l.
Proof.
  induction l as [| x l IH]; simpl; [reflexivity |].
  rewrite insert_by_index_perm. now constructor.
Qed.

Lemma insert_by_index_sorted (x : Segment) (l : list Segment) :
  StronglySorted Z.le (map index l) ->
  StronglySorted Z.le (map index (insert_by_index x l)).
Proof.
  induction l as [| y l IH]; simpl; intros H.
  - repeat constructor.
  - destruct (Z.leb_spec (index x) (index y)) as [Hle | Hgt]; simpl.
    + constructor; [exact H |].
      apply StronglySorted_inv in H as [_ Hy].
      constructor; [exact Hle |].
      eapply Forall_impl; [| exact Hy]. simpl. intros; lia.
    + apply StronglySorted_inv in H as [Hl Hy].
      constructor; [now apply IH |].
      assert (Hp : Permutation (map index (insert_by_index x l))
                               (map index (x :: l)))
        by (apply Permutation_map, insert_by_index_perm).
      eapply Permutation_Forall; [symmetry; exact Hp |].
      simpl. constructor; [lia | exact Hy].
Qed.

Lemma sort_by_index_sorted (l : list Segment) :
  StronglySorted Z.le (map index (sort_by_index l)).
Proof.
  induction l as [| x l IH]; simpl; [constructor |].
  now apply insert_by_index_sorted.
Qed.

(** Sorting a sorted list changes nothing (the sort is stable). *)
Lemma sort_by_index_fixed (l : list Segment) :
  StronglySorted Z.le (map index l) -> sort_by_index l = l.
Proof.
  induction l as [| x l IH]; simpl; intros H; [reflexivity |].
  apply StronglySorted_inv in H as [Hl Hx].
  rewrite (IH Hl). destruct l as [| y l]; [reflexivity |].
  simpl. inversion Hx as [| ? ? Hxy _]; subst.
  apply Z.leb_le in Hxy. now rewrite Hxy.
Qed.

(** Strictly ascending is sorted together with duplicate-free. *)
Lemma ascending_iff (l : list Segment) :
  ascending l
  <-> StronglySorted Z.le (map index l) /\ NoDup (map index l).
Proof.
  unfold ascending. induction (map index l) as [| i js IH]; split.
  - intros _. split; constructor.
  - intros _. constructor.
  - intros H. apply StronglySorted_inv in H as [Hs Hi].
    apply IH in Hs as [Hs Hn]. split.
    + constructor; [exact Hs |]. eapply Forall_impl; [| exact Hi].
      simpl. intros; lia.
    + constructor; [| exact Hn]. intros Hin.
      rewrite Forall_forall in Hi. specialize (Hi _ Hin). lia.
  - intros [Hs Hn]. apply StronglySorted_inv in Hs as [Hs Hi].
    inversion Hn as [| ? ? Hnotin Hn']; subst.
    constructor; [apply IH; now split |].
    rewrite Forall_forall in *. intros j Hj.
    specialize (Hi _ Hj). assert (i <> j) by (intros ->; contradiction). lia.
Qed.

Lemma has_index_spec (i : Z) (l : list Segment) :
  has_index i l = true <-> In i (map index l).
Proof.
  unfold has_index. rewrite existsb_exists, in_map_iff. split.
  - intros (s & Hin & Heq). apply Z.eqb_eq in Heq. eauto.
  - intros (s & Heq & Hin). exists s. split; [exact Hin | now apply Z.eqb_eq].
Qed.

Lemma has_index_false (i : Z) (l : list Segment) :
  has_index i l = false <-> ~ In i (map index l).
Proof.
  rewrite <- has_index_spec. destruct (has_index i l); split; congruence.
Qed.

(** Appending a fresh index and sorting keeps the timeline ascending. *)
Lemma sort_append_ascending (x : Segment) (l : list Segment) :
  ascending l -> has_index (index x) l = false ->
  ascending (sort_by_index (l ++ [x])).
Proof.
  intros Hl Hx. apply ascending_iff. split; [apply sort_by_index_sorted |].
  apply ascending_iff in Hl as [_ Hn]. apply has_index_false in Hx.
  eapply Permutation_NoDup.
  - symmetry. apply Permutation_map, sort_by_index_perm.
  - rewrite map_app. simpl.
    eapply Permutation_NoDup; [apply Permutation_cons_append |].
    now constructor.
Qed.

Lemma mergeSegment_ascending (i : Z) (segmentData : Segment) (buf : AudioBuffer)
      (s s' : AudioStory) :
  index segmentData = i -> ascending (segments s) ->
  mergeSegment i segmentData buf (Some s) = Some s' ->
  ascending (segments s').
Proof.
  intros Hi Hs. simpl.
  destruct (has_index i (segments s)) eqn:Hh; intros [= <-]; [exact Hs |].
  simpl. apply sort_append_ascending; [exact Hs |]. simpl. now rewrite Hi.
Qed.

Lemma count_index_perm (i : Z) (l l' : list Segment) :
  Permutation l l' -> count_index i l = count_index i l'.
Proof.
  intros H. unfold count_index. apply Permutation_length.
  induction H; simpl.
  - constructor.
  - destruct (index x =? i); [now constructor | assumption].
  - destruct (index x =? i), (index y =? i);
      try apply perm_swap; try apply Permutation_refl.
  - etransitivity; eassumption.
Qed.

Lemma count_index_absent (i : Z) (l : list Segment) :
  has_index i l = false -> count_index i l = 0%nat.
Proof.
  unfold has_index, count_index. induction l as [| x l IH]; simpl; [reflexivity |].
  destruct (index x =? i); simpl; [discriminate | exact IH].
Qed.

Lemma count_index_ascending (i : Z) (l : list Segment) :
  ascending l -> has_index i l = true -> count_index i l = 1%nat.
Proof.
  unfold ascending, count_index, has_index.
  induction l as [| x l IH]; simpl; intros Hs Hh; [discriminate |].
  apply StronglySorted_inv in Hs as [Hs Hx].
  destruct (Z.eqb_spec (index x) i) as [Heq | Hne]; simpl.
  - f_equal. apply (count_index_absent i l). apply has_index_false.
    intros Hin. rewrite Forall_forall in Hx. specialize (Hx _ Hin). lia.
  - now apply IH.
Qed.

(** Merging an index that is present changes nothing. *)
Lemma mergeSegment_present (i : Z) (segmentData : Segment) (buf : AudioBuffer)
      (s : AudioStory) :
  has_index i (segments s) = true ->
  mergeSegment i segmentData buf (Some s) = Some s.
Proof. intros H. simpl. now rewrite H. Qed.

(** After one merge of index [i] the timeline holds it exactly once. *)
Lemma mergeSegment_count (i : Z) (segmentData : Segment) (buf : AudioBuffer)
      (s : AudioStory) :
  index segmentData = i -> ascending (segments s) ->
  exists s', mergeSegment i segmentData buf (Some s) = Some s'
             /\ has_index i (segments s') = true
             /\ count_index i (segments s') = 1%nat.
Proof.
  intros Hi Hs. simpl. destruct (has_index i (segments s)) eqn:Hh.
  - exists s. split; [reflexivity |]. split; [exact Hh |].
    now apply count_index_ascending.
  - eexists. split; [reflexivity |]. simpl.
    assert (Hp : Permutation (sort_by_index (segments s ++ [withAudio segmentData buf]))
                             (withAudio segmentData buf :: segments s)).
    { rewrite sort_by_index_perm. symmetry. apply Permutation_cons_append. }
    split.
    + apply has_index_spec.
      eapply Permutation_in; [symmetry; apply Permutation_map, Hp |].
      simpl. now left.
    + rewrite (count_index_perm i _ _ Hp). unfold count_index. simpl.
      rewrite Hi, Z.eqb_refl. simpl. f_equal.
      now apply (count_index_absent i).
Qed.

(** ** Lists of suspended invocations *)

Lemma Forall_replace {X : Type} (P : X -> Prop) (f : X -> bool) (y : X) (l : list X) :
  Forall P l -> P y -> Forall P (map (fun x => if f x then y else x) l).
Proof.
  intros Hl Hy. induction Hl; simpl; constructor; auto.
  now destruct (f x).
Qed.

Lemma Forall_keep {X : Type} (P : X -> Prop) (f : X -> bool) (l : list X) :
  Forall P l -> Forall P (filter f l).
Proof.
  intros Hl. apply (incl_Forall (incl_filter f l) Hl).
Qed.

(** Dropping the only suspended invocation leaves none. *)
Lemma drop_only {X : Type} (f : X -> bool) (l : list X) (c : X) :
  (List.length l <= 1)%nat -> find f l = Some c ->
  filter (fun x => negb (f x)) l = [].
Proof.
  destruct l as [| x [| y l]]; simpl; intros Hlen Hfind; try discriminate;
    [| lia].
  destruct (f x); [reflexivity | discriminate].
Qed.

Lemma find_dropped {X : Type} (f : X -> bool) (l : list X) :
  find f (filter (fun x => negb (f x)) l) = None.
Proof.
  induction l as [| x l IH]; simpl; [reflexivity |].
  destruct (f x) eqn:Hx; simpl; [exact IH | now rewrite Hx].
Qed.

Lemma find_nonempty {X : Type} (f : X -> bool) (l : list X) (c : X) :
  find f l = Some c -> (1 <= List.length l)%nat.
Proof. destruct l; simpl; [discriminate | lia]. Qed.

Ltac step_cases estimate a ev H :=
  generalize (step_transition estimate a ev);
  generalize (step estimate a ev);
  let a' := fresh "a'" in
  let T := fresh "T" in
  intros a' T; revert H; destruct T; intros H.

(** ** The timeline stays sorted and duplicate-free *)

Section Orderly.

Variable estimate : Z -> Z.

Lemma orderly_step (a : App) (ev : Event) :
  orderly a -> faithful a ev = true -> orderly (step estimate a ev).
Proof.
  intros (Ht & Hb & Hi) Hf. step_cases estimate a ev Hf;
    unfold orderly; simpl.
  - auto.
  - repeat split; auto. apply Forall_app. split; [exact Hb |].
    constructor; [| constructor].
    destruct H4 as (beat & previous & Hst). unfold bg_data_ok. now rewrite Hst.
  - repeat split; auto. apply Forall_replace; [exact Hb |].
    simpl in Hf. rewrite H in Hf. apply Z.eqb_eq in Hf. exact Hf.
  - repeat split; auto. apply Forall_replace; [exact Hb |].
    destruct (find_bg_some _ _ _ H) as [Hin _].
    rewrite Forall_forall in Hb. specialize (Hb _ Hin).
    unfold bg_data_ok in *. simpl. now rewrite H0 in Hb.
  - repeat split; auto using Forall_keep.
    destruct (story a) as [s |] eqn:Hs; simpl; [| exact I].
    destruct (find_bg_some _ _ _ H) as [Hin _].
    rewrite Forall_forall in Hb. specialize (Hb _ Hin).
    unfold bg_data_ok in Hb. rewrite H0 in Hb.
    destruct (has_index (bg_index c) (segments s)) eqn:Hh; simpl; [exact Ht |].
    apply sort_append_ascending; [exact Ht |]. simpl. now rewrite Hb.
  - repeat split; auto using Forall_keep.
  - repeat split; auto. apply Forall_app. split; [exact Hi |].
    constructor; [exact I | constructor].
  - repeat split; auto. apply Forall_replace; [exact Hi | exact I].
  - repeat split; auto. apply Forall_replace; [exact Hi |].
    simpl in Hf. apply Z.eqb_eq in Hf. exact Hf.
  - repeat split; auto. apply Forall_replace; [exact Hi |].
    destruct (find_init_some _ _ _ H) as [Hin _].
    rewrite Forall_forall in Hi. specialize (Hi _ Hin).
    unfold init_data_ok in *. simpl. now rewrite H0 in Hi.
  - repeat split; auto using Forall_keep.
    unfold ascending. simpl. repeat constructor.
  - repeat split; auto using Forall_keep.
  - auto.
  - repeat split; auto.
Qed.

Lemma orderly_run (evs : list Event) (a : App) :
  orderly a -> along estimate faithful a evs = true ->
  orderly (run estimate a evs).
Proof.
  revert a. induction evs as [| ev evs IH]; intros a Ha Hf; [exact Ha |].
  simpl in Hf. apply andb_true_iff in Hf as [Hev Hrest].
  simpl. apply IH; [now apply orderly_step | exact Hrest].
Qed.

Lemma orderly_initial : orderly initial.
Proof. repeat split; constructor. Qed.

End Orderly.

(** C3: in every state reached with a faithful segment generator the
    timeline is sorted ascending by index and has no duplicate index;
    merging a result for an index the timeline already holds returns the
    timeline unchanged; and after two completions for the same index the
    timeline holds exactly one segment with that index. *)
Theorem timeline_sorted_unique (estimate : Z -> Z) (evs : list Event) :
  along estimate faithful initial evs = true ->
  forall s, story (run estimate initial evs) = Some s ->
    (ascending (segments s)
     /\ StronglySorted Z.le (map index (segments s))
     /\ NoDup (map index (segments s)))
    /\ (forall i segmentData buf,
          has_index i (segments s) = true ->
          mergeSegment i segmentData buf (Some s) = Some s)
    /\ (forall i first buf1 second buf2,
          index first = i -> index second = i ->
          exists s',
            mergeSegment i second buf2 (mergeSegment i first buf1 (Some s)) = Some s'
            /\ count_index i (segments s') = 1%nat
            /\ ascending (segments s')).
Proof.
  intros Hf s Hs.
  pose proof (orderly_run estimate evs initial (orderly_initial) Hf) as (Ht & _).
  rewrite Hs in Ht. split; [| split].
  - split; [exact Ht | now apply ascending_iff].
  - intros i segmentData buf. apply mergeSegment_present.
  - intros i first buf1 second buf2 H1 H2.
    destruct (mergeSegment_count i first buf1 s H1 Ht) as (s1 & Hm & Hh & Hc).
    exists s1. rewrite Hm, (mergeSegment_present i second buf2 s1 Hh).
    split; [reflexivity |]. split; [exact Hc |].
    exact (mergeSegment_ascending i first buf1 s s1 H1 Ht Hm).
Qed.

Lemma timeline_sorted_unique_witness :
  along Samples.estimate faithful initial Samples.staleDelivery = true
  /\ story (run Samples.estimate initial Samples.staleDelivery)
     = Some (mkAudioStory 10 Samples.beats
               [withAudio (Samples.chapter 1) 0%nat;
                withAudio (Samples.chapter 3) 0%nat])
  /\ ascending [withAudio (Samples.chapter 1) 0%nat;
                withAudio (Samples.chapter 3) 0%nat].
Proof.
  assert (H1 : along Samples.estimate faithful initial Samples.staleDelivery = true)
    by (vm_compute; reflexivity).
  assert (H2 : story (run Samples.estimate initial Samples.staleDelivery)
               = Some (mkAudioStory 10 Samples.beats
                         [withAudio (Samples.chapter 1) 0%nat;
                          withAudio (Samples.chapter 3) 0%nat]))
    by (vm_compute; reflexivity).
  split; [exact H1 |]. split; [exact H2 |].
  exact (proj1 (proj1 (timeline_sorted_unique Samples.estimate
                         Samples.staleDelivery H1 _ H2))).
Defined.

(** ** Single flight *)

Section SingleFlight.

Variable estimate : Z -> Z.

Lemma singleFlight_le (a : App) :
  singleFlight a -> (List.length (bgCalls a) <= 1)%nat.
Proof. unfold singleFlight. destruct (isGeneratingRef a); lia. Qed.

Lemma singleFlight_step (a : App) (ev : Event) :
  singleFlight a -> quietReset a ev = true -> singleFlight (step estimate a ev).
Proof.
  intros Hinv Hq. pose proof (singleFlight_le a Hinv) as Hle.
  step_cases estimate a ev Hq; unfold singleFlight in *; simpl;
    rewrite ?length_map; auto.
  - rewrite length_app, Hinv, H1. reflexivity.
  - now rewrite (drop_only _ _ _ Hle H).
  - now rewrite (drop_only _ _ _ Hle H).
  - simpl in Hq. destruct (bgCalls a); [reflexivity | discriminate].
Qed.

Lemma singleFlight_run (evs : list Event) (a : App) :
  singleFlight a -> along estimate quietReset a evs = true ->
  singleFlight (run estimate a evs).
Proof.
  revert a. induction evs as [| ev evs IH]; intros a Ha Hq; [exact Ha |].
  simpl in Hq. apply andb_true_iff in Hq as [Hev Hrest].
  simpl. apply IH; [now apply singleFlight_step | exact Hrest].
Qed.

(** The flag is taken in the very call that starts an invocation. *)
Lemma generateNextSegment_acquires (i : Z) (a : App) :
  generateNextSegment i a = a
  \/ (isGeneratingRef a = false
      /\ isGeneratingRef (generateNextSegment i a) = true
      /\ exists c, bgCalls (generateNextSegment i a) = bgCalls a ++ [c]).
Proof.
  unfold generateNextSegment.
  destruct (route a); [| now left]. destruct (story a); [| now left].
  destruct (isGeneratingRef a) eqn:Hl; [now left |].
  right. simpl. repeat split. eexists. reflexivity.
Qed.

(** Every way an invocation ends releases the flag. *)
Lemma bg_end_releases (a : App) (c : BgCall) (ev : Event) :
  find_bg (bg_id c) a = Some c -> bg_awaits c ev ->
  throws ev \/ completes ev ->
  isGeneratingRef (step estimate a ev) = false
  /\ find_bg (bg_id c) (step estimate a ev) = None.
Proof.
  intros Hfind Haw [Hth | Hc].
  - destruct (bg_throw_caught estimate a c ev Hfind Haw Hth) as (e & ->).
    split; [reflexivity |]. unfold find_bg. simpl.
    apply (find_dropped (fun c' => Nat.eqb (bg_id c') (bg_id c))).
  - destruct ev as [| id o | id o | id s | | | | | | |];
      simpl in Hc; try contradiction.
    destruct s as [u | e]; try contradiction.
    simpl in Haw. destruct (bg_stage c) eqn:Hst; try contradiction. subst id.
    simpl. rewrite Hfind, Hst. split; [reflexivity |]. unfold find_bg. simpl.
    apply (find_dropped (fun c' => Nat.eqb (bg_id c') (bg_id c))).
Qed.

End SingleFlight.

(** C2 fails as stated: the listener ends the journey while segment 3 is
    being generated and starts a new one; every event is one the page
    offers, and two generations are suspended at the same time (the one
    for segment 3 of the old journey and the one for segment 2 of the new). *)
Lemma restart_runs_two_generations :
  let a := run Samples.estimate initial Samples.restartedWhileGenerating in
  along Samples.estimate offered initial Samples.restartedWhileGenerating = true
  /\ along Samples.estimate faithful initial Samples.restartedWhileGenerating = true
  /\ map bg_index (bgCalls a) = [3; 2]
  /\ ~ (List.length (bgCalls a) <= 1)%nat.
Proof. vm_compute. repeat split. intros H. inversion H as [| ? H']. inversion H'. Qed.

(** C2, amended: as long as no reset arrives while a background generation
    is suspended, at most one is suspended at any time, and the flag is
    held exactly then.  In any state: the flag is taken in the call that
    starts the invocation, before its first await; it is never taken while
    held, since the effect and [generateNextSegment] leave a state with the
    flag held unchanged; and every end of an invocation, thrown or normal,
    releases it. *)
Theorem single_flight (estimate : Z -> Z) (evs : list Event) :
  along estimate quietReset initial evs = true ->
  let a := run estimate initial evs in
  ((List.length (bgCalls a) <= 1)%nat
   /\ (isGeneratingRef a = true <-> List.length (bgCalls a) = 1%nat))
  /\ (forall b i,
        generateNextSegment i b = b
        \/ (isGeneratingRef b = false
            /\ isGeneratingRef (generateNextSegment i b) = true
            /\ exists c, bgCalls (generateNextSegment i b) = bgCalls b ++ [c]))
  /\ (forall b i,
        isGeneratingRef b = true ->
        bufferingEffect b = b /\ generateNextSegment i b = b)
  /\ (forall b c ev,
        find_bg (bg_id c) b = Some c -> bg_awaits c ev ->
        throws ev \/ completes ev ->
        isGeneratingRef (step estimate b ev) = false
        /\ find_bg (bg_id c) (step estimate b ev) = None).
Proof.
  intros Hq a.
  assert (Hsf : singleFlight a).
  { apply singleFlight_run; [reflexivity | exact Hq]. }
  split; [| split; [| split]].
  - split; [now apply singleFlight_le |].
    unfold singleFlight in Hsf. rewrite Hsf.
    destruct (isGeneratingRef a); split; congruence.
  - intros b i. apply generateNextSegment_acquires.
  - intros b i Hb. split;
      [now apply bufferingEffect_held | now apply generateNextSegment_held].
  - apply bg_end_releases.
Qed.

Lemma single_flight_witness :
  along Samples.estimate quietReset initial
        (Samples.firstChapter 0 ++ [RunBufferingEffect; RunBufferingEffect]) = true
  /\ (List.length
        (bgCalls (run Samples.estimate initial
                      (Samples.firstChapter 0
                       ++ [RunBufferingEffect; RunBufferingEffect]))) <= 1)%nat.
Proof.
  assert (H : along Samples.estimate quietReset initial
                    (Samples.firstChapter 0
                     ++ [RunBufferingEffect; RunBufferingEffect]) = true)
    by (vm_compute; reflexivity).
  split; [exact H |].
  exact (proj1 (proj1 (single_flight Samples.estimate _ H))).
Defined.

(** ** Contiguous indices *)

Lemma seq_sorted (start n : nat) :
  StronglySorted Z.le (map Z.of_nat (seq start n)).
Proof.
  revert start. induction n as [| n IH]; intros start; simpl; constructor.
  - apply IH.
  - apply Forall_forall. intros z Hz. apply in_map_iff in Hz as (k & <- & Hk).
    apply in_seq in Hk. lia.
Qed.

Lemma contiguous_sorted (l : list Segment) :
  contiguous l -> StronglySorted Z.le (map index l).
Proof. unfold contiguous. intros ->. apply seq_sorted. Qed.

Lemma contiguous_fresh (l : list Segment) :
  contiguous l -> has_index (Z.of_nat (List.length l) + 1) l = false.
Proof.
  unfold contiguous. intros H. apply has_index_false. rewrite H.
  intros Hin. apply in_map_iff in Hin as (k & Hk & Hin).
  apply in_seq in Hin. lia.
Qed.

Lemma contiguous_snoc (l : list Segment) (x : Segment) :
  contiguous l -> index x = Z.of_nat (List.length l) + 1 ->
  contiguous (l ++ [x]).
Proof.
  unfold contiguous. intros Hl Hx.
  rewrite map_app, length_app, Hl. simpl.
  rewrite Nat.add_1_r, seq_S, map_app. simpl. rewrite Hx. do 2 f_equal. lia.
Qed.

(** Merging segment [length + 1] into a contiguous timeline appends it. *)
Lemma mergeSegment_next (segmentData : Segment) (buf : AudioBuffer) (s : AudioStory) :
  contiguous (segments s) ->
  index segmentData = Z.of_nat (List.length (segments s)) + 1 ->
  mergeSegment (Z.of_nat (List.length (segments s)) + 1) segmentData buf (Some s)
  = Some (mkAudioStory (totalSegmentsEstimate s) (outline s)
                       (segments s ++ [withAudio segmentData buf])).
Proof.
  intros Hc Hi. simpl. rewrite (contiguous_fresh _ Hc). do 2 f_equal.
  apply sort_by_index_fixed, contiguous_sorted, contiguous_snoc; assumption.
Qed.

Section InStep.

Variable estimate : Z -> Z.

Lemma only_member {X : Type} (l : list X) (c : X) :
  (List.length l <= 1)%nat -> In c l -> l = [c].
Proof.
  destruct l as [| x [| y l]]; simpl; intros Hlen Hin;
    [contradiction | | lia].
  destruct Hin as [-> | []]. reflexivity.
Qed.

(** A suspended background generation belongs to the current timeline. *)
Lemma inStep_background (a : App) (c : BgCall) :
  inStep a -> find_bg (bg_id c) a = Some c ->
  exists s, story a = Some s
            /\ contiguous (segments s)
            /\ bg_index c = Z.of_nat (List.length (segments s)) + 1
            /\ bg_data_ok c
            /\ bgCalls a = [c]
            /\ isGeneratingRef a = true
            /\ initCalls a = []
            /\ appState a = READY_TO_PLAY.
Proof.
  intros (Hsf & Hb & Hi & Hst) Hf.
  destruct (find_bg_some _ _ _ Hf) as [Hin _].
  pose proof (only_member _ _ (singleFlight_le a Hsf) Hin) as Hone.
  destruct (story a) as [s |].
  - destruct Hst as (Hc & Hidx & Hinit & Hph). exists s.
    rewrite Forall_forall in Hb, Hidx.
    repeat split; auto.
    unfold singleFlight in Hsf. rewrite Hone in Hsf.
    destruct (isGeneratingRef a); [reflexivity | discriminate].
  - destruct Hst as (Hnone & _). rewrite Hnone in Hin. contradiction.
Qed.

(** A suspended initial generation runs before any timeline exists. *)
Lemma inStep_initial (a : App) (c : InitCall) :
  inStep a -> find_init (init_id c) a = Some c ->
  story a = None
  /\ bgCalls a = []
  /\ isGeneratingRef a = false
  /\ initCalls a = [c]
  /\ init_data_ok c
  /\ appState a = GENERATING_INITIAL_SEGMENT.
Proof.
  intros (Hsf & Hb & Hi & Hst) Hf.
  destruct (find_init_some _ _ _ Hf) as [Hin _].
  destruct (story a) as [s |].
  - destruct Hst as (_ & _ & Hinit & _). rewrite Hinit in Hin. contradiction.
  - destruct Hst as (Hnone & Hlen & Hph).
    pose proof (only_member _ _ Hlen Hin) as Hone.
    rewrite Forall_forall in Hi.
    repeat split; auto.
    + unfold singleFlight in Hsf. rewrite Hnone in Hsf.
      destruct (isGeneratingRef a); [discriminate | reflexivity].
    + apply Hph. rewrite Hone. discriminate.
Qed.

End InStep.

Section Journey.

Variable estimate : Z -> Z.

Lemma inStep_step (a : App) (ev : Event) :
  inStep a -> regular a ev = true -> inStep (step estimate a ev).
Proof.
  intros Hinv Hreg.
  generalize (step_transition estimate a ev).
  generalize (step estimate a ev). intros a' T. revert Hreg.
  destruct T as [ ev
                | s r c Hs Hr Hl Hid Hidx Hst
                | c sd Hf Hst
                | c sd ctx buf Hf Hst
                | c sd buf ctx u Hf Hst
                | c e ev Hf
                | details
                | c o Hf Hst
                | c o beat sd Hf Hst
                | c o sd ctx buf Hf Hst
                | c o sd buf ctx u Hf Hst
                | c e ev Hf
                | i
                | ];
    intros Hreg; unfold regular in Hreg;
    apply andb_true_iff in Hreg as [Hreg Hquiet];
    apply andb_true_iff in Hreg as [Hoff Hfaith].
  - exact Hinv.
  - (* the effect launches *)
    destruct Hinv as (Hsf & Hb & Hi & Hstory). rewrite Hs in Hstory.
    destruct Hstory as (Hc & Hx & Hinit & Hph).
    unfold singleFlight in Hsf. rewrite Hl in Hsf.
    apply length_zero_iff_nil in Hsf.
    unfold inStep, singleFlight. simpl. rewrite Hs, Hsf. simpl.
    destruct Hst as (b1 & b2 & Hst).
    repeat split; auto.
    + constructor; [| constructor]. unfold bg_data_ok. now rewrite Hst.
  - (* text arrives *)
    destruct (inStep_background a c Hinv Hf)
      as (s & Hs & Hc & Hidx & Hok & Hone & Hl & Hinit & Hph).
    simpl in Hfaith. rewrite Hf in Hfaith. apply Z.eqb_eq in Hfaith.
    destruct Hinv as (_ & _ & Hi & _).
    unfold inStep, singleFlight. simpl.
    rewrite Hs, Hone, Hl, Hinit. simpl. rewrite Nat.eqb_refl.
    repeat split; auto; repeat constructor; auto.
  - (* audio arrives *)
    destruct (inStep_background a c Hinv Hf)
      as (s & Hs & Hc & Hidx & Hok & Hone & Hl & Hinit & Hph).
    unfold bg_data_ok in Hok. rewrite Hst in Hok.
    unfold inStep, singleFlight. simpl.
    rewrite Hs, Hone, Hl, Hinit. simpl. rewrite Nat.eqb_refl.
    repeat split; auto; repeat constructor; auto.
  - (* the context is closed: merge *)
    destruct (inStep_background a c Hinv Hf)
      as (s & Hs & Hc & Hidx & Hok & Hone & Hl & Hinit & Hph).
    unfold bg_data_ok in Hok. rewrite Hst in Hok.
    unfold inStep, singleFlight. simpl.
    rewrite Hs, Hone, Hinit. simpl. rewrite Nat.eqb_refl. simpl.
    rewrite Hidx in *.
    pose proof (mergeSegment_next sd buf s Hc Hok) as Hm. simpl in Hm.
    rewrite Hm. simpl.
    repeat split; auto. apply contiguous_snoc; [exact Hc |]. exact Hok.
  - (* a background await throws *)
    destruct (inStep_background a c Hinv Hf)
      as (s & Hs & Hc & Hidx & Hok & Hone & Hl & Hinit & Hph).
    unfold inStep, singleFlight. simpl.
    rewrite Hs, Hone, Hinit. simpl. rewrite Nat.eqb_refl. simpl.
    repeat split; auto.
  - (* a route is submitted *)
    simpl in Hoff. destruct Hinv as (Hsf & Hb & Hi & Hstory).
    unfold inStep, singleFlight. simpl.
    destruct (story a) as [s |].
    + destruct Hstory as (_ & _ & _ & Hph). rewrite Hph in Hoff. discriminate.
    + destruct Hstory as (Hnone & Hlen & Hgen).
      assert (Hempty : initCalls a = []).
      { destruct (initCalls a) as [| x l]; [reflexivity |].
        rewrite Hgen in Hoff; [discriminate | discriminate]. }
      rewrite Hempty. simpl.
      repeat split; auto. repeat constructor.
  - (* the outline arrives *)
    destruct (inStep_initial a c Hinv Hf) as (Hs & Hnone & Hl & Hone & Hok & Hph).
    destruct Hinv as (Hsf & Hb & _).
    unfold inStep, singleFlight. simpl.
    rewrite Hs, Hone, Hnone, Hl. simpl. rewrite Nat.eqb_refl.
    repeat split; auto; repeat constructor.
  - (* the first text arrives *)
    destruct (inStep_initial a c Hinv Hf) as (Hs & Hnone & Hl & Hone & Hok & Hph).
    simpl in Hfaith. apply Z.eqb_eq in Hfaith.
    unfold inStep, singleFlight. simpl.
    rewrite Hs, Hone, Hnone, Hl. simpl. rewrite Nat.eqb_refl.
    repeat split; auto; repeat constructor; auto.
  - (* the first audio arrives *)
    destruct (inStep_initial a c Hinv Hf) as (Hs & Hnone & Hl & Hone & Hok & Hph).
    unfold init_data_ok in Hok. rewrite Hst in Hok.
    unfold inStep, singleFlight. simpl.
    rewrite Hs, Hone, Hnone, Hl. simpl. rewrite Nat.eqb_refl.
    repeat split; auto; repeat constructor; auto.
  - (* the first context is closed: the timeline is created *)
    destruct (inStep_initial a c Hinv Hf) as (Hs & Hnone & Hl & Hone & Hok & Hph).
    unfold init_data_ok in Hok. rewrite Hst in Hok.
    unfold inStep, singleFlight. simpl.
    rewrite Hone, Hnone, Hl. simpl. rewrite Nat.eqb_refl. simpl.
    repeat split; auto. unfold contiguous. simpl. now rewrite Hok.
  - (* an initial await throws *)
    destruct (inStep_initial a c Hinv Hf) as (Hs & Hnone & Hl & Hone & Hok & Hph).
    unfold inStep, singleFlight. simpl.
    rewrite Hs, Hone, Hnone, Hl. simpl. rewrite Nat.eqb_refl. simpl.
    repeat split; auto. intros H. now elim H.
  - (* the playback position moves *)
    exact Hinv.
  - (* reset, in quiet *)
    simpl in Hoff, Hquiet. destruct Hinv as (Hsf & Hb & Hi & Hstory).
    unfold playerShown in Hoff.
    destruct (story a) as [s |];
      [| rewrite andb_false_r in Hoff; discriminate].
    destruct Hstory as (_ & _ & Hinit & _).
    destruct (bgCalls a) eqn:Hbg; [| discriminate].
    unfold inStep, singleFlight. simpl. rewrite Hbg, Hinit. simpl.
    repeat split; auto. intros H. now elim H.
Qed.

End Journey.

Lemma inStep_run (estimate : Z -> Z) (evs : list Event) (a : App) :
  inStep a -> along estimate regular a evs = true ->
  inStep (run estimate a evs).
Proof.
  revert a. induction evs as [| ev evs IH]; intros a Ha Hr; [exact Ha |].
  simpl in Hr. apply andb_true_iff in Hr as [Hev Hrest].
  simpl. apply IH; [now apply inStep_step | exact Hrest].
Qed.

Lemma inStep_initial_state : inStep initial.
Proof.
  unfold inStep, singleFlight. simpl.
  repeat split; auto. intros H. now elim H.
Qed.

(** C10 fails as stated: the generation of segment 3 of a journey that was
    ended delivers into the timeline of the next journey; every event is
    one the page offers and the generator is faithful, yet the timeline
    holds the indices 1 and 3. *)
Lemma stale_delivery_leaves_gap :
  let a := run Samples.estimate initial Samples.staleDelivery in
  along Samples.estimate offered initial Samples.staleDelivery = true
  /\ along Samples.estimate faithful initial Samples.staleDelivery = true
  /\ option_map (fun s => map index (segments s)) (story a) = Some [1; 3]
  /\ ~ (forall s, story a = Some s -> contiguous (segments s)).
Proof.
  vm_compute. repeat split. intros H. specialize (H _ eq_refl). discriminate H.
Qed.

(** C10, amended: as long as no reset arrives while a background generation
    is suspended, the indices of the timeline are exactly 1 ..
    [segments.length], and a suspended background generation is the one for
    index [segments.length + 1]. *)
Theorem contiguous_timeline (estimate : Z -> Z) (evs : list Event) :
  along estimate regular initial evs = true ->
  forall s, story (run estimate initial evs) = Some s ->
    contiguous (segments s)
    /\ (forall c, In c (bgCalls (run estimate initial evs)) ->
                  bg_index c = Z.of_nat (List.length (segments s)) + 1).
Proof.
  intros Hr s Hs.
  pose proof (inStep_run estimate evs initial inStep_initial_state Hr)
    as (_ & _ & _ & Hstory).
  rewrite Hs in Hstory. destruct Hstory as (Hc & Hidx & _).
  split; [exact Hc |]. now apply Forall_forall.
Qed.

Lemma contiguous_timeline_witness :
  along Samples.estimate regular initial
        (Samples.firstChapter 0 ++ [RunBufferingEffect] ++ Samples.nextChapter 1 2)
  = true
  /\ story (run Samples.estimate initial
              (Samples.firstChapter 0 ++ [RunBufferingEffect]
               ++ Samples.nextChapter 1 2))
     = Some (mkAudioStory 10 Samples.beats
               [withAudio (Samples.chapter 1) 0%nat;
                withAudio (Samples.chapter 2) 0%nat])
  /\ contiguous [withAudio (Samples.chapter 1) 0%nat;
                 withAudio (Samples.chapter 2) 0%nat].
Proof.
  assert (H1 : along Samples.estimate regular initial
                     (Samples.firstChapter 0 ++ [RunBufferingEffect]
                      ++ Samples.nextChapter 1 2) = true)
    by (vm_compute; reflexivity).
  assert (H2 : story (run Samples.estimate initial
                        (Samples.firstChapter 0 ++ [RunBufferingEffect]
                         ++ Samples.nextChapter 1 2))
               = Some (mkAudioStory 10 Samples.beats
                         [withAudio (Samples.chapter 1) 0%nat;
                          withAudio (Samples.chapter 2) 0%nat]))
    by (vm_compute; reflexivity).
  split; [exact H1 |]. split; [exact H2 |].
  exact (proj1 (contiguous_timeline Samples.estimate _ H1 _ H2)).
Defined.

(** * Further properties of the code *)

(** ** The two generating flags *)

Lemma flagsAgree_step (estimate : Z -> Z) (a : App) (ev : Event) :
  flagsAgree a -> flagsAgree (step estimate a ev).
Proof.
  intros H. generalize (step_transition estimate a ev).
  generalize (step estimate a ev). intros a' T.
  destruct T; unfold flagsAgree in *; simpl; auto.
Qed.

(** X1: in every state the page can reach, whatever the events and their
    order, [isBackgroundGenerating] (what the player displays) equals
    [isGeneratingRef.current] (what the engine tests). *)
Theorem generating_flags_agree (estimate : Z -> Z) (evs : list Event) :
  isBackgroundGenerating (run estimate initial evs)
  = isGeneratingRef (run estimate initial evs).
Proof.
  change (flagsAgree (run estimate initial evs)).
  assert (H : flagsAgree initial) by reflexivity.
  revert H. generalize initial.
  induction evs as [| ev evs IH]; intros a Ha; [exact Ha |].
  simpl. apply IH. now apply flagsAgree_step.
Qed.

(** ** The timeline between creation and reset *)

(** X2: while no timeline exists, no event other than the normal end of an
    initial generation creates one; in particular a background generation
    that delivers after a reset merges into nothing. *)
Theorem no_timeline_without_initial_generation
        (estimate : Z -> Z) (a : App) (ev : Event) :
  story a = None ->
  (forall id u, ev <> InitClose id (Resolve u)) ->
  story (step estimate a ev) = None.
Proof.
  intros Hs Hev. generalize (step_transition estimate a ev).
  generalize (step estimate a ev). intros a' T. revert Hev.
  destruct T; intros Hev; simpl; try rewrite Hs; try reflexivity.
  now elim (Hev (init_id c) u).
Qed.

Lemma no_timeline_without_initial_generation_witness :
  story (handleReset Samples.generating) = None
  /\ story (step Samples.estimate (handleReset Samples.generating)
                 (BgText 1 (OpSettles (Resolve (Samples.chapter 2)))))
     = None.
Proof.
  split; [reflexivity |].
  apply (no_timeline_without_initial_generation Samples.estimate
           (handleReset Samples.generating)
           (BgText 1 (OpSettles (Resolve (Samples.chapter 2))))).
  - reflexivity.
  - intros id u. discriminate.
Defined.

Lemma mergeSegment_keeps (i : Z) (segmentData : Segment) (buf : AudioBuffer)
      (s : AudioStory) :
  exists s', mergeSegment i segmentData buf (Some s) = Some s'
             /\ totalSegmentsEstimate s' = totalSegmentsEstimate s
             /\ outline s' = outline s
             /\ (forall x, In x (segments s) -> In x (segments s'))
             /\ (List.length (segments s) <= List.length (segments s')
                 <= List.length (segments s) + 1)%nat.
Proof.
  simpl. destruct (has_index i (segments s)).
  - exists s. repeat split; auto; lia.
  - eexists. split; [reflexivity |]. simpl.
    pose proof (sort_by_index_perm (segments s ++ [withAudio segmentData buf])) as Hp.
    repeat split.
    + intros x Hx. eapply Permutation_in; [symmetry; exact Hp |].
      apply in_or_app. now left.
    + rewrite (Permutation_length Hp), length_app. simpl. lia.
    + rewrite (Permutation_length Hp), length_app. simpl. lia.
Qed.

(** X3: once a timeline exists, every event except a reset and the end of
    an initial generation keeps it: the estimate and the outline stay, no
    segment is removed or replaced, and at most one segment is added. *)
Theorem timeline_only_grows
        (estimate : Z -> Z) (a : App) (ev : Event) (s : AudioStory) :
  story a = Some s -> ~ replacesTimeline ev ->
  exists s', story (step estimate a ev) = Some s'
             /\ totalSegmentsEstimate s' = totalSegmentsEstimate s
             /\ outline s' = outline s
             /\ (forall x, In x (segments s) -> In x (segments s'))
             /\ (List.length (segments s) <= List.length (segments s')
                 <= List.length (segments s) + 1)%nat.
Proof.
  intros Hs Hev. generalize (step_transition estimate a ev).
  generalize (step estimate a ev). intros a' T. revert Hev.
  destruct T; intros Hev; simpl; try rewrite Hs;
    try (exists s; repeat split; auto; lia).
  - apply mergeSegment_keeps.
  - now elim Hev.
  - now elim Hev.
Qed.

Lemma timeline_only_grows_witness :
  story Samples.generating = Some Samples.firstStory
  /\ exists s', story (step Samples.estimate Samples.generating
                            (BgText 1 DeadlineElapses)) = Some s'
                /\ totalSegmentsEstimate s' = 10
                /\ outline s' = Samples.beats
                /\ (forall x, In x (segments Samples.firstStory) ->
                              In x (segments s'))
                /\ (1 <= List.length (segments s') <= 2)%nat.
Proof.
  split; [reflexivity |].
  exact (timeline_only_grows Samples.estimate Samples.generating
           (BgText 1 DeadlineElapses) Samples.firstStory eq_refl (fun H => H)).
Defined.

(** ** The phase and what is on the page *)

Lemma phaseShape_initial_call (a : App) (c : InitCall) :
  phaseShape a -> In c (initCalls a) ->
  appState a = GENERATING_INITIAL_SEGMENT
  /\ story a = None /\ route a <> None
  /\ List.length (initCalls a) = 1%nat.
Proof.
  unfold phaseShape. intros H Hin. destruct (appState a).
  - destruct H as (_ & Hi). rewrite Hi in Hin. contradiction.
  - contradiction.
  - destruct H as (Hs & Hr & Hl). auto.
  - destruct H as (_ & _ & Hi). rewrite Hi in Hin. contradiction.
Qed.

Lemma phaseShape_step (estimate : Z -> Z) (a : App) (ev : Event) :
  phaseShape a -> offered a ev = true -> phaseShape (step estimate a ev).
Proof.
  intros Hinv Hoff.
  generalize (step_transition estimate a ev).
  generalize (step estimate a ev). intros a' T. revert Hoff.
  destruct T as [ ev
                | s r c Hs Hr Hl Hid Hidx Hst
                | c sd Hf Hst
                | c sd ctx buf Hf Hst
                | c sd buf ctx u Hf Hst
                | c e ev Hf
                | details
                | c o Hf Hst
                | c o beat sd Hf Hst
                | c o sd ctx buf Hf Hst
                | c o sd buf ctx u Hf Hst
                | c e ev Hf
                | i
                | ];
    intros Hoff; try exact Hinv.
  - (* merge *)
    unfold phaseShape in *. simpl.
    destruct (appState a); auto;
      destruct Hinv as (Hs & Hrest); (split; [| exact Hrest]).
    + now rewrite Hs.
    + now rewrite Hs.
    + destruct (story a); [simpl; destruct (has_index _ _); discriminate
                          | now elim Hs].
  - (* a route is submitted *)
    unfold phaseShape in *. simpl in *.
    destruct (appState a); try discriminate; try contradiction.
    destruct Hinv as (Hs & Hi). rewrite Hi. simpl.
    repeat split; auto. discriminate.
  - (* the outline arrives *)
    destruct (find_init_some _ _ _ Hf) as [Hin _].
    destruct (phaseShape_initial_call a c Hinv Hin) as (Hph & Hs & Hr & Hl).
    unfold phaseShape. simpl. rewrite Hph, length_map. auto.
  - destruct (find_init_some _ _ _ Hf) as [Hin _].
    destruct (phaseShape_initial_call a c Hinv Hin) as (Hph & Hs & Hr & Hl).
    unfold phaseShape. simpl. rewrite Hph, length_map. auto.
  - destruct (find_init_some _ _ _ Hf) as [Hin _].
    destruct (phaseShape_initial_call a c Hinv Hin) as (Hph & Hs & Hr & Hl).
    unfold phaseShape. simpl. rewrite Hph, length_map. auto.
  - (* the timeline is created *)
    destruct (find_init_some _ _ _ Hf) as [Hin _].
    destruct (phaseShape_initial_call a c Hinv Hin) as (Hph & Hs & Hr & Hl).
    unfold phaseShape. simpl.
    repeat split; [discriminate | exact Hr |].
    apply (drop_only (fun c' => Nat.eqb (init_id c') (init_id c)) _ c);
      [lia | exact Hf].
  - (* an initial await throws *)
    destruct (find_init_some _ _ _ Hf) as [Hin _].
    destruct (phaseShape_initial_call a c Hinv Hin) as (Hph & Hs & Hr & Hl).
    unfold phaseShape. simpl. split; [exact Hs |].
    apply (drop_only (fun c' => Nat.eqb (init_id c') (init_id c)) _ c);
      [lia | exact Hf].
  - (* reset *)
    unfold phaseShape in *. simpl in *. unfold playerShown in Hoff.
    destruct (appState a); try discriminate.
    destruct Hinv as (_ & _ & Hi). now split.
Qed.

Lemma phaseShape_run (estimate : Z -> Z) (evs : list Event) (a : App) :
  phaseShape a -> along estimate offered a evs = true ->
  phaseShape (run estimate a evs).
Proof.
  revert a. induction evs as [| ev evs IH]; intros a Ha Ho; [exact Ha |].
  simpl in Ho. apply andb_true_iff in Ho as [Hev Hrest].
  simpl. apply IH; [now apply phaseShape_step | exact Hrest].
Qed.

(** X4: on a page driven by the events it offers, the phase
    ROUTE_CONFIRMED is never entered; a timeline exists exactly in
    READY_TO_PLAY, which is exactly when the player and the reset button are
    shown; and an initial generation is suspended exactly in
    GENERATING_INITIAL_SEGMENT, where it is the only one. *)
Theorem phase_tells_the_page (estimate : Z -> Z) (evs : list Event) :
  along estimate offered initial evs = true ->
  let a := run estimate initial evs in
  appState a <> ROUTE_CONFIRMED
  /\ (story a <> None <-> appState a = READY_TO_PLAY)
  /\ (playerShown a = true <-> appState a = READY_TO_PLAY)
  /\ (initCalls a <> [] <-> appState a = GENERATING_INITIAL_SEGMENT)
  /\ (List.length (initCalls a) <= 1)%nat.
Proof.
  intros Ho a.
  assert (H : phaseShape a).
  { apply phaseShape_run; [now split | exact Ho]. }
  unfold phaseShape, playerShown in *.
  destruct (appState a); simpl.
  - destruct H as (Hs & Hi). rewrite Hs, Hi. simpl.
    repeat split; try discriminate; try congruence; auto.
  - contradiction.
  - destruct H as (Hs & Hr & Hl). rewrite Hs.
    repeat split; try discriminate; try congruence; try lia.
    intros _ Hi. rewrite Hi in Hl. discriminate.
  - destruct H as (Hs & Hr & Hi). rewrite Hi.
    destruct (story a); [| now elim Hs]. destruct (route a); [| now elim Hr].
    simpl. repeat split; try discriminate; try congruence; auto.
Qed.

Lemma phase_tells_the_page_witness :
  along Samples.estimate offered initial Samples.staleDelivery = true
  /\ appState (run Samples.estimate initial Samples.staleDelivery)
     <> ROUTE_CONFIRMED.
Proof.
  assert (H : along Samples.estimate offered initial Samples.staleDelivery = true)
    by (vm_compute; reflexivity).
  split; [exact H |].
  exact (proj1 (phase_tells_the_page Samples.estimate _ H)).
Defined.

(** ** The estimate bounds the timeline *)

Lemma bufferingEffect_guarded (a : App) :
  bufferingEffect a = a
  \/ exists s c,
      story a = Some s
      /\ Z.of_nat (List.length (segments s)) < currentPlayingIndex a + 3
      /\ Z.of_nat (List.length (segments s)) < totalSegmentsEstimate s
      /\ story (bufferingEffect a) = Some s
      /\ bgCalls (bufferingEffect a) = bgCalls a ++ [c].
Proof.
  unfold bufferingEffect.
  destruct (story a) as [s |] eqn:Hs; [| now left].
  destruct (route a) as [r |] eqn:Hr; [| now left].
  destruct (AppState_ltb _ _); [now left |].
  destruct (Z.ltb_spec (Z.of_nat (List.length (segments s)))
                       (currentPlayingIndex a + 3)) as [H1 | H1];
    [| now left].
  destruct (Z.ltb_spec (Z.of_nat (List.length (segments s)))
                       (totalSegmentsEstimate s)) as [H2 | H2];
    [| now left].
  destruct (isGeneratingRef a) eqn:Hl; [now left |]. simpl.
  right.
  destruct (generateNextSegment_free
              (Z.of_nat (List.length (segments s)) + 1) a s r Hs Hr Hl)
    as (c & -> & _).
  exists s, c. simpl. auto.
Qed.

Lemma withinEstimate_step (estimate : Z -> Z) (a : App) (ev : Event) :
  inStep a -> withinEstimate a -> regular a ev = true ->
  withinEstimate (step estimate a ev).
Proof.
  intros Hin Hinv Hreg.
  pose proof (step_transition estimate a ev) as T.
  remember (step estimate a ev) as a' eqn:E.
  revert Hreg E.
  destruct T as [ ev
                | s r c Hs Hr Hl Hid Hidx Hst
                | c sd Hf Hst
                | c sd ctx buf Hf Hst
                | c sd buf ctx u Hf Hst
                | c e ev Hf
                | details
                | c o Hf Hst
                | c o beat sd Hf Hst
                | c o sd ctx buf Hf Hst
                | c o sd buf ctx u Hf Hst
                | c e ev Hf
                | i
                | ];
    intros Hreg E; try exact Hinv.
  - (* the effect launches *)
    simpl in E.
    destruct (bufferingEffect_guarded a) as [Hsame | (s0 & c0 & Hs0 & _ & Hlt & _)].
    + rewrite Hsame in E. apply (f_equal bgCalls) in E. simpl in E.
      apply (f_equal (@List.length _)) in E. rewrite length_app in E.
      simpl in E. lia.
    + unfold withinEstimate in *. simpl. rewrite Hs in *.
      injection Hs0 as <-. split; [apply Hinv | intros _; exact Hlt].
  - (* text arrives *)
    destruct (inStep_background a c Hin Hf) as (s & Hs & _ & _ & _ & Hone & _).
    unfold withinEstimate in *. simpl. rewrite Hs in *.
    split; [apply Hinv |]. intros _. apply Hinv. rewrite Hone. discriminate.
  - (* audio arrives *)
    destruct (inStep_background a c Hin Hf) as (s & Hs & _ & _ & _ & Hone & _).
    unfold withinEstimate in *. simpl. rewrite Hs in *.
    split; [apply Hinv |]. intros _. apply Hinv. rewrite Hone. discriminate.
  - (* merge *)
    destruct (inStep_background a c Hin Hf)
      as (s & Hs & Hc & Hidx & Hok & Hone & _).
    unfold bg_data_ok in Hok. rewrite Hst in Hok.
    unfold withinEstimate in *. rewrite Hs in Hinv.
    destruct Hinv as (_ & Hlt).
    assert (Hnow : Z.of_nat (List.length (segments s)) < totalSegmentsEstimate s)
      by (apply Hlt; rewrite Hone; discriminate).
    simpl. rewrite Hs, Hone. simpl. rewrite Nat.eqb_refl. simpl.
    rewrite Hidx in *.
    pose proof (mergeSegment_next sd buf s Hc Hok) as Hm. simpl in Hm.
    rewrite Hm. simpl. rewrite length_app. simpl.
    split; [lia | intros H; now elim H].
  - (* a background await throws *)
    destruct (inStep_background a c Hin Hf) as (s & Hs & _ & _ & _ & Hone & _).
    unfold withinEstimate in *. simpl. rewrite Hs in *. rewrite Hone. simpl.
    rewrite Nat.eqb_refl. simpl.
    split; [apply Hinv | intros H; now elim H].
  - (* the timeline is created *)
    unfold withinEstimate. simpl. split; [lia |].
    destruct (inStep_initial a c Hin Hf) as (_ & Hnone & _).
    rewrite Hnone. intros H. now elim H.
  - (* reset *)
    exact I.
Qed.

(** X5: as long as no reset arrives while a background generation is
    suspended, the timeline never holds more segments than its estimate (or
    than the one first segment, should the estimate be below 1). *)
Theorem timeline_within_estimate (estimate : Z -> Z) (evs : list Event) :
  along estimate regular initial evs = true ->
  forall s, story (run estimate initial evs) = Some s ->
    Z.of_nat (List.length (segments s)) <= Z.max 1 (totalSegmentsEstimate s).
Proof.
  intros Hr s Hs.
  assert (H : inStep (run estimate initial evs)
              /\ withinEstimate (run estimate initial evs)).
  { clear Hs. revert Hr.
    assert (H0 : inStep initial /\ withinEstimate initial)
      by (split; [apply inStep_initial_state | exact I]).
    revert H0. generalize initial.
    induction evs as [| ev evs IH]; intros a Ha Hr; [exact Ha |].
    simpl in Hr. apply andb_true_iff in Hr as [Hev Hrest].
    simpl. apply IH; [| exact Hrest]. destruct Ha as [Ha1 Ha2]. split.
    - now apply inStep_step.
    - now apply withinEstimate_step. }
  destruct H as [_ H]. unfold withinEstimate in H. rewrite Hs in H. apply H.
Qed.

Lemma timeline_within_estimate_witness :
  along Samples.estimate regular initial
        (Samples.firstChapter 0 ++ [RunBufferingEffect] ++ Samples.nextChapter 1 2)
  = true
  /\ story (run Samples.estimate initial
              (Samples.firstChapter 0 ++ [RunBufferingEffect]
               ++ Samples.nextChapter 1 2))
     = Some (mkAudioStory 10 Samples.beats
               [withAudio (Samples.chapter 1) 0%nat;
                withAudio (Samples.chapter 2) 0%nat])
  /\ 2 <= Z.max 1 10.
Proof.
  assert (H1 : along Samples.estimate regular initial
                     (Samples.firstChapter 0 ++ [RunBufferingEffect]
                      ++ Samples.nextChapter 1 2) = true)
    by (vm_compute; reflexivity).
  assert (H2 : story (run Samples.estimate initial
                        (Samples.firstChapter 0 ++ [RunBufferingEffect]
                         ++ Samples.nextChapter 1 2))
               = Some (mkAudioStory 10 Samples.beats
                         [withAudio (Samples.chapter 1) 0%nat;
                          withAudio (Samples.chapter 2) 0%nat]))
    by (vm_compute; reflexivity).
  split; [exact H1 |]. split; [exact H2 |].
  exact (timeline_within_estimate Samples.estimate _ H1 _ H2).
Defined.

(** ** The timeout guard under every schedule *)

Lemma guardShape_step {A : Type} (errorMsg : string)
      (g : Guard A) (o : Occurrence A) :
  guardShape g -> guardShape (TimeoutGuard.step errorMsg g o).
Proof.
  destruct g as [t n s r]. unfold guardShape. simpl.
  destruct o as [[v | e] |]; destruct t; destruct s; simpl; auto;
    intros H; destruct r as [[x | x] |]; simpl in *;
    repeat match goal with
           | H : _ /\ _ |- _ => destruct H
           | H : _ \/ _ |- _ => destruct H
           | H : exists _, _ |- _ => destruct H
           end;
    try discriminate; try congruence;
    repeat split; try lia; try discriminate; eauto.
Qed.

Lemma guardShape_run {A : Type} (errorMsg : string) (os : list (Occurrence A)) :
  guardShape (TimeoutGuard.run errorMsg os).
Proof.
  unfold TimeoutGuard.run.
  assert (H : guardShape (@TimeoutGuard.start A)).
  { unfold guardShape. simpl. auto. }
  revert H. generalize (@TimeoutGuard.start A).
  induction os as [| o os IH]; intros g Hg; [exact Hg |].
  simpl. apply IH. now apply guardShape_step.
Qed.

Lemma fired_stays {A : Type} (errorMsg : string)
      (os : list (Occurrence A)) (g : Guard A) :
  timer g = TimerFired ->
  timer (fold_left (TimeoutGuard.step errorMsg) os g) = TimerFired.
Proof.
  revert g. induction os as [| o os IH]; intros g Hg; [exact Hg |].
  simpl. apply IH. destruct o as [[v | e] |]; simpl.
  - destruct (opSettled g); simpl; [exact Hg | now rewrite Hg].
  - destruct (opSettled g); simpl; exact Hg.
  - now rewrite Hg.
Qed.

(** Once the operation has settled and the timer has fired, nothing changes. *)
Lemma settled_fired_inert {A : Type} (errorMsg : string)
      (os : list (Occurrence A)) (g : Guard A) :
  opSettled g = true -> timer g = TimerFired ->
  fold_left (TimeoutGuard.step errorMsg) os g = g.
Proof.
  revert g. induction os as [| o os IH]; intros g Hs Ht; [reflexivity |].
  simpl.
  assert (TimeoutGuard.step errorMsg g o = g) as ->; [| now apply IH].
  destruct o as [s |]; simpl; [now rewrite Hs | now rewrite Ht].
Qed.

(** After the operation has settled, only the timer can still change. *)
Lemma settled_rest {A : Type} (errorMsg : string)
      (os : list (Occurrence A)) (g : Guard A) :
  opSettled g = true -> timer g = TimerPending ->
  clearCalls (fold_left (TimeoutGuard.step errorMsg) os g) = clearCalls g
  /\ timer (fold_left (TimeoutGuard.step errorMsg) os g)
     = if existsb (fun o => match o with
                            | DeadlineElapses => true
                            | OpSettles _ => false
                            end) os
       then TimerFired else TimerPending.
Proof.
  revert g. induction os as [| o os IH]; intros g Hs Ht; [now split |].
  simpl. destruct o as [s |]; simpl.
  - rewrite Hs. now apply IH.
  - rewrite Ht. rewrite settled_fired_inert by (simpl; auto). now split.
Qed.

(** X7: whatever happens to a guarded call and in whatever order, the wait
    is settled by the first occurrence and by nothing later, and
    [clearTimeout] runs at most once.  When the operation fulfils first the
    wait returns its value and the timer is cleared by one [clearTimeout];
    when it rejects first the wait fails with that rejection, [clearTimeout]
    never runs and the timer stays armed until it fires; when the deadline
    comes first the wait fails with exactly the caller's message.  A cleared
    timer is found only after a first fulfilment, an armed one only before
    anything has happened or after a first rejection. *)
Theorem guard_under_every_schedule
        (A : Type) (errorMsg : string) (os : list (Occurrence A)) :
  let g := TimeoutGuard.run errorMsg os in
  (clearCalls g <= 1)%nat
  /\ (forall v rest, os = OpSettles (Resolve v) :: rest ->
        raced g = Some (Resolve v)
        /\ timer g = TimerCleared /\ clearCalls g = 1%nat)
  /\ (forall e rest, os = OpSettles (Reject e) :: rest ->
        raced g = Some (Reject e)
        /\ clearCalls g = 0%nat
        /\ timer g = if existsb (fun o => match o with
                                          | DeadlineElapses => true
                                          | OpSettles _ => false
                                          end) rest
                     then TimerFired else TimerPending)
  /\ (forall rest, os = DeadlineElapses :: rest ->
        raced g = Some (Reject (Error errorMsg)) /\ timer g = TimerFired)
  /\ (timer g = TimerCleared ->
      exists v rest, os = OpSettles (Resolve v) :: rest)
  /\ (timer g = TimerPending ->
      os = [] \/ exists e rest, os = OpSettles (Reject e) :: rest).
Proof.
  intros g. pose proof (guardShape_run errorMsg os) as H. fold g in H.
  assert (Hres : forall v rest, os = OpSettles (Resolve v) :: rest ->
                   raced g = Some (Resolve v)
                   /\ timer g = TimerCleared /\ clearCalls g = 1%nat).
  { intros v rest ->. subst g. apply withTimeout_success. }
  assert (Hrej : forall e rest, os = OpSettles (Reject e) :: rest ->
                   raced g = Some (Reject e)
                   /\ clearCalls g = 0%nat
                   /\ timer g = if existsb (fun o => match o with
                                                     | DeadlineElapses => true
                                                     | OpSettles _ => false
                                                     end) rest
                                then TimerFired else TimerPending).
  { intros e rest ->. subst g.
    split; [apply (withTimeout_first errorMsg (OpSettles (Reject e)) rest) |].
    unfold TimeoutGuard.run. simpl.
    apply (settled_rest errorMsg rest
             (mkGuard TimerPending 0 true (Some (Reject e)))); reflexivity. }
  assert (Hdl : forall rest, os = DeadlineElapses :: rest ->
                  raced g = Some (Reject (Error errorMsg))
                  /\ timer g = TimerFired).
  { intros rest ->. subst g.
    split; [apply (withTimeout_first errorMsg DeadlineElapses rest) |].
    unfold TimeoutGuard.run. simpl. now apply fired_stays. }
  split; [| split; [exact Hres | split; [exact Hrej | split; [exact Hdl |]]]].
  - unfold guardShape in H.
    destruct (timer g); [destruct H as [-> _] | destruct H as [H _]
                         | destruct H as [-> _]]; lia.
  - split.
    + intros Ht. destruct os as [| [[v | e] |] rest].
      * discriminate Ht.
      * now exists v, rest.
      * destruct (Hrej e rest eq_refl) as (_ & _ & Hx). rewrite Ht in Hx.
        destruct (existsb _ rest); discriminate.
      * destruct (Hdl rest eq_refl) as (_ & Hx). congruence.
    + intros Ht. destruct os as [| [[v | e] |] rest].
      * now left.
      * destruct (Hres v rest eq_refl) as (_ & Hx & _). congruence.
      * right. now exists e, rest.
      * destruct (Hdl rest eq_refl) as (_ & Hx). congruence.
Qed.

(** ** What a text request carries *)

(** [slice_last n] is the last [n] code units, or everything. *)
Lemma slice_last_spec (n : nat) (s : JsString) :
  exists older, s = older ++ slice_last n s
                /\ List.length (slice_last n s) = Nat.min n (List.length s).
Proof.
  unfold slice_last. exists (firstn (List.length s - n) s). split.
  - symmetry. apply firstn_skipn.
  - rewrite length_skipn. lia.
Qed.

(** The beat is the outline's entry when there is a non-empty one, and the
    fallback in every other case. *)
Lemma beat_or_spec (beats : list JsString) (i : Z) (fallback : JsString) :
  (forall b, 0 <= i -> nth_error beats (Z.to_nat i) = Some b -> b <> [] ->
             beat_or beats i fallback = b)
  /\ (i < 0 \/ nth_error beats (Z.to_nat i) = None
      \/ nth_error beats (Z.to_nat i) = Some [] ->
      beat_or beats i fallback = fallback).
Proof.
  unfold beat_or. split.
  - intros b Hi Hn Hb. destruct (Z.ltb_spec i 0); [lia |].
    rewrite Hn. destruct b; [now elim Hb | reflexivity].
  - intros [Hi | [Hn | Hn]].
    + destruct (Z.ltb_spec i 0); [reflexivity | lia].
    + destruct (i <? 0); [reflexivity | now rewrite Hn].
    + destruct (i <? 0); [reflexivity | now rewrite Hn].
Qed.

(** X8: a background generation that starts asks for the given index with
    the route and the estimate of the moment.  Its beat is the outline's
    entry at position [index - 1] whenever that entry exists and is not
    empty, and the fallback sentence in every other case.  Its context is
    the tail of the texts so far joined by single blanks: all of it up to
    3000 code units, the last 3000 beyond. *)
Theorem text_request_parameters
        (i : Z) (a : App) (s : AudioStory) (r : RouteDetails) :
  story a = Some s -> route a = Some r -> isGeneratingRef a = false ->
  exists c beat previous,
    bgCalls (generateNextSegment i a) = bgCalls a ++ [c]
    /\ bg_index c = i /\ bg_route c = r
    /\ bg_total c = totalSegmentsEstimate s
    /\ bg_stage c = BgAwaitText beat previous
    /\ (forall b, 1 <= i ->
                  nth_error (outline s) (Z.to_nat (i - 1)) = Some b ->
                  b <> [] -> beat = b)
    /\ (i < 1 \/ nth_error (outline s) (Z.to_nat (i - 1)) = None
        \/ nth_error (outline s) (Z.to_nat (i - 1)) = Some [] ->
        beat = units "Continue the journey towards the final destination.")
    /\ (exists older,
          join (units " ") (map text (segments s)) = older ++ previous)
    /\ List.length previous
       = Nat.min 3000
           (List.length (join (units " ") (map text (segments s)))).
Proof.
  intros Hs Hr Hl. unfold generateNextSegment. rewrite Hs, Hr, Hl.
  eexists. eexists. eexists.
  split; [reflexivity |]. split; [reflexivity |]. split; [reflexivity |].
  split; [reflexivity |]. split; [reflexivity |].
  destruct (slice_last_spec 3000 (join (units " ") (map text (segments s))))
    as (older & Heq & Hlen).
  destruct (beat_or_spec (outline s) (i - 1)
              (units "Continue the journey towards the final destination."))
    as (Hfound & Hfallback).
  split; [intros b Hi Hn Hb; apply Hfound; [lia | exact Hn | exact Hb] |].
  split; [intros [Hi | [Hn | Hn]]; apply Hfallback;
          [left; lia | right; now left | right; now right] |].
  split; [now exists older | exact Hlen].
Qed.

Lemma text_request_parameters_witness :
  story Samples.ready = Some Samples.firstStory
  /\ route Samples.ready = Some Samples.trip
  /\ isGeneratingRef Samples.ready = false
  /\ exists c beat previous,
      bgCalls (generateNextSegment 2 Samples.ready) = bgCalls Samples.ready ++ [c]
      /\ bg_index c = 2 /\ bg_route c = Samples.trip
      /\ bg_total c = totalSegmentsEstimate Samples.firstStory
      /\ bg_stage c = BgAwaitText beat previous
      /\ (forall b, 1 <= 2 ->
                    nth_error (outline Samples.firstStory) (Z.to_nat (2 - 1))
                    = Some b ->
                    b <> [] -> beat = b)
      /\ (2 < 1
          \/ nth_error (outline Samples.firstStory) (Z.to_nat (2 - 1)) = None
          \/ nth_error (outline Samples.firstStory) (Z.to_nat (2 - 1)) = Some [] ->
          beat = units "Continue the journey towards the final destination.")
      /\ (exists older,
            join (units " ") (map text (segments Samples.firstStory))
            = older ++ previous)
      /\ List.length previous
         = Nat.min 3000
             (List.length
                (join (units " ") (map text (segments Samples.firstStory)))).
Proof.
  assert (H1 : story Samples.ready = Some Samples.firstStory)
    by (vm_compute; reflexivity).
  assert (H2 : route Samples.ready = Some Samples.trip)
    by (vm_compute; reflexivity).
  assert (H3 : isGeneratingRef Samples.ready = false)
    by (vm_compute; reflexivity).
  split; [exact H1 |]. split; [exact H2 |]. split; [exact H3 |].
  exact (text_request_parameters 2 Samples.ready Samples.firstStory
           Samples.trip H1 H2 H3).
Defined.

(** ** Trimming *)

Lemma trimStart_length (s : string) :
  (String.length (trimStart s) <= String.length s)%nat.
Proof.
  induction s as [| c s IH]; simpl; [lia |].
  destruct (isWhiteSpace c); simpl; lia.
Qed.

Lemma trimStart_idem (s : string) : trimStart (trimStart s) = trimStart s.
Proof.
  induction s as [| c s IH]; simpl; [reflexivity |].
  destruct (isWhiteSpace c) eqn:Hc; [exact IH |]. simpl. now rewrite Hc.
Qed.

Lemma trimEnd_idem (s : string) : trimEnd (trimEnd s) = trimEnd s.
Proof.
  induction s as [| c s IH]; simpl; [reflexivity |].
  destruct (trimEnd s) as [| d kept] eqn:Hk.
  - destruct (isWhiteSpace c) eqn:Hc; simpl; [reflexivity | now rewrite Hc].
  - change (trimEnd (String c (String d kept)) = String c (String d kept)).
    change (trimEnd (String c (String d kept)))
      with (match trimEnd (String d kept) with
            | EmptyString =>
                if isWhiteSpace c then EmptyString else String c EmptyString
            | kept' => String c kept'
            end).
    now rewrite IH.
Qed.

(** Trimming the end does not uncover white space at the start. *)
Lemma trimStart_trimEnd (s : string) :
  trimStart s = s -> trimStart (trimEnd s) = trimEnd s.
Proof.
  destruct s as [| c s]; [reflexivity |]. simpl.
  destruct (isWhiteSpace c) eqn:Hc.
  - intros H. pose proof (trimStart_length s) as Hl.
    rewrite H in Hl. simpl in Hl. lia.
  - intros _. destruct (trimEnd s); simpl; now rewrite Hc.
Qed.

Lemma trim_idem (s : string) : trim (trim s) = trim s.
Proof.
  unfold trim.
  rewrite (trimStart_trimEnd (trimStart s) (trimStart_idem s)).
  apply trimEnd_idem.
Qed.

Lemma trimStart_chars (s : string) (c : ascii) :
  In c (list_ascii_of_string (trimStart s)) -> In c (list_ascii_of_string s).
Proof.
  induction s as [| d s IH]; simpl; [auto |].
  destruct (isWhiteSpace d); simpl; auto.
Qed.

Lemma trimEnd_chars (s : string) (c : ascii) :
  In c (list_ascii_of_string (trimEnd s)) -> In c (list_ascii_of_string s).
Proof.
  induction s as [| d s IH]; simpl; [auto |].
  destruct (trimEnd s) as [| e kept].
  - destruct (isWhiteSpace d); simpl; [contradiction | tauto].
  - simpl in *. tauto.
Qed.

Lemma trim_chars (s : string) (c : ascii) :
  In c (list_ascii_of_string (trim s)) -> In c (list_ascii_of_string s).
Proof. intros H. now apply trimStart_chars, trimEnd_chars. Qed.

(** ** Build-time key selection *)

(** X9: a key that [cleanKey] lets through is the trimmed input; it is not
    empty, not one of the placeholder words, does not contain YOUR_API_KEY,
    has no white space around it, and passes [cleanKey] again unchanged. *)
Theorem cleanKey_result (key : option string) (k : string) :
  ViteConfig.cleanKey key = Some k ->
  (exists raw, key = Some raw /\ k = trim raw)
  /\ k <> "" /\ k <> "undefined" /\ k <> "GEMINI_API_KEY" /\ k <> "API_KEY"
  /\ includes k "YOUR_API_KEY" = false
  /\ trim k = k
  /\ ViteConfig.cleanKey (Some k) = Some k.
Proof.
  unfold ViteConfig.cleanKey. destruct key as [raw |]; [| discriminate].
  destruct (raw =? "")%string; [discriminate |].
  destruct ((trim raw =? "")%string || (trim raw =? "undefined")%string
            || (trim raw =? "GEMINI_API_KEY")%string
            || (trim raw =? "API_KEY")%string
            || includes (trim raw) "YOUR_API_KEY") eqn:Hbad; [discriminate |].
  intros [= <-]. rewrite trim_idem, Hbad.
  repeat (apply orb_false_iff in Hbad as [Hbad ?]).
  repeat match goal with
         | H : (_ =? _)%string = false |- _ => apply String.eqb_neq in H
         end.
  assert (Hne : (trim raw =? "")%string = false) by now apply String.eqb_neq.
  rewrite Hne. repeat split; auto. now exists raw.
Qed.

Lemma cleanKey_result_witness :
  ViteConfig.cleanKey (Some "  AIza-123 ") = Some "AIza-123"
  /\ ViteConfig.cleanKey (Some "AIza-123") = Some "AIza-123".
Proof.
  split; [reflexivity |].
  exact (proj2 (proj2 (proj2 (proj2 (proj2 (proj2 (proj2
           (cleanKey_result (Some "  AIza-123 ") "AIza-123" eq_refl)))))))).
Defined.

Lemma orElse_cleanKey (key : option string) (b : option string) :
  orElse (ViteConfig.cleanKey key) b
  = match ViteConfig.cleanKey key with
    | Some k => Some k
    | None => b
    end.
Proof.
  destruct (ViteConfig.cleanKey key) as [k |] eqn:Hk; [| reflexivity].
  destruct (cleanKey_result key k Hk) as (_ & Hne & _).
  simpl. apply String.eqb_neq in Hne. now rewrite Hne.
Qed.

Lemma orElse_some (a b : option string) (k : string) :
  orElse a b = Some k -> a = Some k \/ b = Some k.
Proof.
  destruct a as [s |]; simpl; [| auto].
  destruct (s =? "")%string; auto.
Qed.

Lemma orElse_first (a b : option string) :
  a <> Some "" ->
  orElse a b = match a with Some k => Some k | None => b end.
Proof.
  destruct a as [s |]; simpl; [| reflexivity].
  intros H. destruct (String.eqb_spec s ""); [subst; now elim H | reflexivity].
Qed.

Lemma orElse_nonempty (a b : option string) :
  a <> Some "" -> b <> Some "" -> orElse a b <> Some "".
Proof.
  intros Ha Hb. rewrite (orElse_first a b Ha). now destruct a.
Qed.

Lemma cleanKey_nonempty (key : option string) :
  ViteConfig.cleanKey key <> Some "".
Proof.
  intros H. destruct (cleanKey_result key "" H) as (_ & Hne & _). now elim Hne.
Qed.

(** X10: with [processEnv] the record [process.env] and [env] the record
    that [loadEnv(mode, '.', '')] returned (whatever that call put in it),
    the Maps key injected at build time is the first of the six reads, in
    the order [process.env.GOOGLE_MAPS_API_KEY], [env.GOOGLE_MAPS_API_KEY],
    [process.env.API_KEY], [process.env.GEMINI_API_KEY], [env.API_KEY],
    [env.GEMINI_API_KEY], that passes [cleanKey]; there is none exactly
    when none of the six passes; without a Maps-specific key it is the
    generic key; and the injected key passes [cleanKey] unchanged. *)
Theorem maps_key_selection (processEnv env : ViteConfig.Env) :
  let pick := fun keys : list (option string) =>
                find (fun k => match k with Some _ => true | None => false end)
                     (map ViteConfig.cleanKey keys) in
  ViteConfig.finalMapsKey processEnv env
  = match pick [ViteConfig.GOOGLE_MAPS_API_KEY processEnv;
                ViteConfig.GOOGLE_MAPS_API_KEY env;
                ViteConfig.API_KEY processEnv;
                ViteConfig.GEMINI_API_KEY processEnv;
                ViteConfig.API_KEY env;
                ViteConfig.GEMINI_API_KEY env] with
    | Some found => found
    | None => None
    end
  /\ (ViteConfig.mapsKey processEnv env = None ->
      ViteConfig.finalMapsKey processEnv env = ViteConfig.genAIKey processEnv env)
  /\ (ViteConfig.genAIKey processEnv env <> None ->
      ViteConfig.finalMapsKey processEnv env <> None)
  /\ (forall k, ViteConfig.finalMapsKey processEnv env = Some k ->
                ViteConfig.cleanKey (Some k) = Some k).
Proof.
  intros pick.
  pose proof (cleanKey_nonempty (ViteConfig.GOOGLE_MAPS_API_KEY processEnv)) as N1.
  pose proof (cleanKey_nonempty (ViteConfig.GOOGLE_MAPS_API_KEY env)) as N2.
  pose proof (cleanKey_nonempty (ViteConfig.API_KEY processEnv)) as N3.
  pose proof (cleanKey_nonempty (ViteConfig.GEMINI_API_KEY processEnv)) as N4.
  pose proof (cleanKey_nonempty (ViteConfig.API_KEY env)) as N5.
  pose proof (cleanKey_nonempty (ViteConfig.GEMINI_API_KEY env)) as N6.
  assert (NM : ViteConfig.mapsKey processEnv env <> Some "")
    by (apply orElse_nonempty; assumption).
  split; [| split; [| split]].
  - unfold pick, ViteConfig.finalMapsKey, ViteConfig.mapsKey, ViteConfig.genAIKey.
    cbn [map].
    clear NM.
    set (c1 := ViteConfig.cleanKey (ViteConfig.GOOGLE_MAPS_API_KEY processEnv)) in *.
    set (c2 := ViteConfig.cleanKey (ViteConfig.GOOGLE_MAPS_API_KEY env)) in *.
    set (c3 := ViteConfig.cleanKey (ViteConfig.API_KEY processEnv)) in *.
    set (c4 := ViteConfig.cleanKey (ViteConfig.GEMINI_API_KEY processEnv)) in *.
    set (c5 := ViteConfig.cleanKey (ViteConfig.API_KEY env)) in *.
    set (c6 := ViteConfig.cleanKey (ViteConfig.GEMINI_API_KEY env)) in *.
    clearbody c1 c2 c3 c4 c5 c6.
    rewrite !orElse_first by (repeat apply orElse_nonempty; assumption).
    destruct c1, c2, c3, c4, c5, c6; reflexivity.
  - unfold ViteConfig.finalMapsKey. intros ->. reflexivity.
  - unfold ViteConfig.finalMapsKey. intros HG.
    rewrite (orElse_first _ _ NM).
    destruct (ViteConfig.mapsKey processEnv env); [discriminate | exact HG].
  - intros k Hk. unfold ViteConfig.finalMapsKey, ViteConfig.mapsKey,
      ViteConfig.genAIKey in Hk.
    repeat match type of Hk with
           | orElse _ _ = Some _ => apply orElse_some in Hk as [Hk | Hk]
           end;
      apply (cleanKey_result _ _ Hk).
Qed.

(** ** The Maps key at run time and the script tag *)

Lemma removeQuotes_chars (s : string) (c : ascii) :
  In c (list_ascii_of_string (MapsBootstrap.removeQuotes s)) ->
  nat_of_ascii c <> 34%nat /\ nat_of_ascii c <> 39%nat.
Proof.
  induction s as [| d s IH]; simpl; [contradiction |].
  destruct (Nat.eqb_spec (nat_of_ascii d) 34) as [H1 | H1]; simpl; [exact IH |].
  destruct (Nat.eqb_spec (nat_of_ascii d) 39) as [H2 | H2]; simpl; [exact IH |].
  intros [<- | Hin]; [now split | now apply IH].
Qed.

(** X11: the key the page uses for Google Maps contains neither kind of
    quote and has no white space around it; the first of the two
    variables that is set and not empty decides alone: when it spells
    undefined or null there is no key, whatever the other variable holds;
    and when neither is set there is no key. *)
Theorem maps_api_key_shape (mapsEnv apiEnv : option string) :
  (forall k, MapsBootstrap.getMapsApiKey mapsEnv apiEnv = Some k ->
     (forall c, In c (list_ascii_of_string k) ->
                nat_of_ascii c <> 34%nat /\ nat_of_ascii c <> 39%nat)
     /\ trim k = k)
  /\ MapsBootstrap.getMapsApiKey (Some "undefined") apiEnv = None
  /\ MapsBootstrap.getMapsApiKey (Some "null") apiEnv = None
  /\ MapsBootstrap.getMapsApiKey None apiEnv
     = MapsBootstrap.getMapsApiKey (Some "") apiEnv
  /\ MapsBootstrap.getMapsApiKey None None = None
  /\ (forall key, key <> "" ->
        MapsBootstrap.getMapsApiKey (Some key) apiEnv
        = MapsBootstrap.getMapsApiKey (Some key) None).
Proof.
  split; [| repeat split].
  - intros k. unfold MapsBootstrap.getMapsApiKey.
    destruct (orElse mapsEnv apiEnv) as [key |]; [| discriminate].
    destruct (_ || _ || _); [discriminate |]. intros [= <-].
    split; [| apply trim_idem].
    intros c Hc. apply trim_chars in Hc. now apply removeQuotes_chars in Hc.
  - intros key Hne. unfold MapsBootstrap.getMapsApiKey. simpl.
    apply String.eqb_neq in Hne. now rewrite Hne.
Qed.

Lemma hasElement_count (p : MapsBootstrap.Page) :
  MapsBootstrap.hasElement MapsBootstrap.SCRIPT_ID p = false ->
  MapsBootstrap.scriptCount p = 0%nat.
Proof.
  unfold MapsBootstrap.hasElement, MapsBootstrap.scriptCount.
  induction (MapsBootstrap.elements p) as [| e l IH]; simpl; [reflexivity |].
  destruct (MapsBootstrap.el_id e =? MapsBootstrap.SCRIPT_ID)%string; simpl;
    [discriminate | exact IH].
Qed.

Lemma hasElement_appended (l : list MapsBootstrap.Element) (src : string)
      (g : bool) (e : option string) (w : list string) (h : bool) :
  MapsBootstrap.hasElement MapsBootstrap.SCRIPT_ID
    (MapsBootstrap.mkPage
       (l ++ [MapsBootstrap.mkElement MapsBootstrap.SCRIPT_ID src true true])
       g e w h) = true.
Proof.
  unfold MapsBootstrap.hasElement. cbn [MapsBootstrap.elements].
  rewrite existsb_app. apply orb_true_iff. right.
  cbn [existsb MapsBootstrap.el_id]. now rewrite String.eqb_refl.
Qed.

(** X12: the bootstrap effect adds at most one script element, and only
    when there is a non-empty key, no element with the script's id and no
    loaded Maps library; run again on its own result it changes neither the
    document nor the error; without a key it leaves the document alone and
    reports the missing key. *)
Theorem bootstrap_adds_one_script
        (mapsEnv apiEnv : option string) (p : MapsBootstrap.Page) :
  let p' := MapsBootstrap.bootstrapEffect mapsEnv apiEnv p in
  (MapsBootstrap.scriptCount p' <= Nat.max 1 (MapsBootstrap.scriptCount p))%nat
  /\ (MapsBootstrap.elements p' = MapsBootstrap.elements p
      \/ exists apiKey,
          MapsBootstrap.getMapsApiKey mapsEnv apiEnv = Some apiKey
          /\ apiKey <> ""
          /\ MapsBootstrap.hasElement MapsBootstrap.SCRIPT_ID p = false
          /\ MapsBootstrap.googleMaps p = false
          /\ MapsBootstrap.elements p'
             = MapsBootstrap.elements p
               ++ [MapsBootstrap.mkElement MapsBootstrap.SCRIPT_ID
                     (MapsBootstrap.scriptSrc apiKey) true true])
  /\ (MapsBootstrap.elements (MapsBootstrap.bootstrapEffect mapsEnv apiEnv p')
      = MapsBootstrap.elements p'
      /\ MapsBootstrap.scriptError (MapsBootstrap.bootstrapEffect mapsEnv apiEnv p')
         = MapsBootstrap.scriptError p')
  /\ (MapsBootstrap.getMapsApiKey mapsEnv apiEnv = None
      \/ MapsBootstrap.getMapsApiKey mapsEnv apiEnv = Some "" ->
      MapsBootstrap.elements p' = MapsBootstrap.elements p
      /\ MapsBootstrap.scriptError p'
         = Some "API Key is missing. Maps functionality will be limited.").
Proof.
  intros p'.
  assert (Hmax : forall n m : nat, (n <= m \/ n = 1 -> n <= Nat.max 1 m)%nat)
    by (intros; lia).
  split; [apply Hmax |]; subst p'; unfold MapsBootstrap.bootstrapEffect;
    (destruct (MapsBootstrap.getMapsApiKey mapsEnv apiEnv) as [apiKey |] eqn:Hk;
     [destruct (String.eqb_spec apiKey "") as [-> | Hne];
      [| destruct (MapsBootstrap.hasElement MapsBootstrap.SCRIPT_ID p) eqn:Hh;
         [| destruct (MapsBootstrap.googleMaps p) eqn:Hg]] |]).
  - left. unfold MapsBootstrap.scriptCount. simpl. lia.
  - left. simpl. lia.
  - left. simpl. lia.
  - right. simpl. unfold MapsBootstrap.scriptCount at 1. simpl.
    rewrite filter_app, length_app. simpl.
    fold (MapsBootstrap.scriptCount p).
    rewrite (hasElement_count p Hh). reflexivity.
  - left. unfold MapsBootstrap.scriptCount. simpl. lia.
  - simpl. split; [now left | split; [now split |]]. intros _. now split.
  - simpl. rewrite Hh. simpl. split; [now left | split; [now split |]].
    intros [Hx | Hx]; [discriminate | congruence].
  - simpl. rewrite Hh, Hg. simpl. split; [now left | split; [now split |]].
    intros [Hx | Hx]; [discriminate | congruence].
  - simpl. rewrite hasElement_appended. simpl. split; [| split].
    + right. exists apiKey. auto.
    + now split.
    + intros [Hx | Hx]; [discriminate | congruence].
  - simpl. split; [now left | split; [now split |]]. intros _. now split.
Qed.

(** ** The planner's button and its error display *)

(** X13: [handleCalculate] sends a directions request exactly when both
    addresses are non-empty and the Maps library is loaded; the request is
    for these two addresses, the old error is cleared and the button is
    disabled while the request is out; otherwise an error is shown and the
    loading flag is left alone.  A click on an enabled button with the
    library loaded always sends the request. *)
Theorem calculate_sends_request (mapsLoaded : bool) (p : RoutePlanner.Planner) :
  let r := RoutePlanner.handleCalculate mapsLoaded p in
  (snd r <> None
   <-> RoutePlanner.startAddress p <> "" /\ RoutePlanner.endAddress p <> ""
       /\ mapsLoaded = true)
  /\ (snd r <> None ->
      snd r = Some (RoutePlanner.startAddress p, RoutePlanner.endAddress p)
      /\ RoutePlanner.error (fst r) = None
      /\ RoutePlanner.isLoading (fst r) = true
      /\ forall appState, PlannerView.buttonDisabled appState (fst r) = true)
  /\ (snd r = None ->
      RoutePlanner.error (fst r) <> None
      /\ RoutePlanner.isLoading (fst r) = RoutePlanner.isLoading p)
  /\ (forall appState,
        PlannerView.buttonDisabled appState p = false -> mapsLoaded = true ->
        snd r <> None).
Proof.
  intros r. subst r. unfold RoutePlanner.handleCalculate, PlannerView.buttonDisabled.
  destruct (String.eqb_spec (RoutePlanner.startAddress p) "") as [Hs | Hs];
    destruct (String.eqb_spec (RoutePlanner.endAddress p) "") as [He | He];
    destruct mapsLoaded; simpl;
    repeat split; try discriminate; try congruence; try tauto;
    try (intros (? & ? & ?); congruence);
    try (intros; rewrite ?orb_true_r; reflexivity);
    intros appState Hb; rewrite ?orb_true_r in Hb; simpl in Hb;
    rewrite ?orb_true_r in Hb; discriminate Hb.
Qed.

(** X14: whatever the directions service answers, the loading flag is off
    afterwards and the planner's selections are left alone; a route is
    handed to the story generation only with a duration of at most 14400
    seconds, and with the travel mode, voice and style that were selected
    when the button was clicked, whatever is selected when the answer
    arrives; the planner's error is then left as it was, and in every other
    case a non-empty error is shown. *)
Theorem directions_answer_outcome
        (clicked : RoutePlanner.Planner) (d : RoutePlanner.Directions)
        (p : RoutePlanner.Planner) :
  let r := RoutePlanner.directionsCallback clicked d p in
  (RoutePlanner.isLoading (fst r) = false
   /\ RoutePlanner.travelMode (fst r) = RoutePlanner.travelMode p
   /\ RoutePlanner.selectedVoice (fst r) = RoutePlanner.selectedVoice p
   /\ RoutePlanner.selectedStyle (fst r) = RoutePlanner.selectedStyle p
   /\ RoutePlanner.startAddress (fst r) = RoutePlanner.startAddress p
   /\ RoutePlanner.endAddress (fst r) = RoutePlanner.endAddress p)
  /\ (forall details, snd r = Some details ->
        durationSeconds details <= 14400
        /\ travelMode details = RoutePlanner.travelMode clicked
        /\ voiceName details = RoutePlanner.selectedVoice clicked
        /\ storyStyle details = RoutePlanner.selectedStyle clicked
        /\ RoutePlanner.error (fst r) = RoutePlanner.error p)
  /\ (forall p', snd (RoutePlanner.directionsCallback clicked d p') = snd r)
  /\ (snd r = None ->
      exists msg, RoutePlanner.error (fst r) = Some msg /\ msg <> "").
Proof.
  intros r. subst r. unfold RoutePlanner.directionsCallback.
  destruct d as [leg | |].
  - destruct (Z.ltb_spec 14400 (RoutePlanner.duration_value leg)) as [H | H];
      simpl.
    + split; [repeat split |]. split; [discriminate |]. split; [reflexivity |].
      intros _. eexists. split; [reflexivity | discriminate].
    + split; [repeat split |]. split; [| split; [reflexivity | discriminate]].
      intros details [= <-]. simpl. auto.
  - simpl. split; [repeat split |]. split; [discriminate |].
    split; [reflexivity |].
    intros _. eexists. split; [reflexivity | discriminate].
  - simpl. split; [repeat split |]. split; [discriminate |].
    split; [reflexivity |].
    intros _. eexists. split; [reflexivity | discriminate].
Qed.

Lemma init_thrown_throws (ev : Event) (e : JsError) :
  init_thrown ev = Some e -> throws ev.
Proof.
  destruct ev as [| | | | | id o | id o | id o | id s | |];
    simpl; try discriminate;
    try (destruct o as [[v | e0] |]; simpl; (discriminate || auto));
    destruct s; simpl; (discriminate || auto).
Qed.

(** The thrown value of a throwing await decides what the [catch] does. *)
Lemma init_thrown_caught (estimate : Z -> Z) (a : App) (c : InitCall)
      (ev : Event) (e : JsError) :
  find_init (init_id c) a = Some c -> init_awaits c ev ->
  init_thrown ev = Some e ->
  step estimate a ev = init_catch c e a.
Proof.
  intros Hfind Haw He.
  destruct (init_throw_caught estimate a c ev Hfind Haw
              (init_thrown_throws ev e He)) as (e' & He' & Hstep).
  congruence.
Qed.

(** X15: when an await of the initial generation throws, the planner's
    error display, fed with the page's [generationError], shows the
    journey-might-be-too-long message when the thrown value has a string
    message containing "timed out" or "timeout" (as after every elapsed
    deadline), and the generic failure message when it has another string
    message or none; when the thrown value is [undefined] or [null], or has
    a message whose [includes] cannot be called, [generationError] is not
    written and the display shows what it showed before.  A missing or empty
    external error leaves the planner alone, as does the start of a new
    attempt, which clears [generationError]. *)
Theorem generation_failure_reaches_planner
        (estimate : Z -> Z) (a : App) (c : InitCall) (ev : Event) (e : JsError)
        (p : RoutePlanner.Planner) :
  find_init (init_id c) a = Some c -> init_awaits c ev ->
  init_thrown ev = Some e ->
  let shown := PlannerView.externalErrorEffect
                 (generationError (step estimate a ev)) p in
  (forall m, e = Thrown (MsgString m) ->
     shown = RoutePlanner.setError
               (Some (if includes m "timed out" || includes m "timeout"
                      then friendlyTimeout else genericFailure)) p)
  /\ (e = Thrown MsgFalsy ->
      shown = RoutePlanner.setError (Some genericFailure) p)
  /\ (timesOut ev -> shown = RoutePlanner.setError (Some friendlyTimeout) p)
  /\ (e = ThrownNullish ->
      shown = PlannerView.externalErrorEffect (generationError a) p)
  /\ (forall answers, e = Thrown (MsgOther answers) ->
        answers "timed out" = None ->
        shown = PlannerView.externalErrorEffect (generationError a) p)
  /\ PlannerView.externalErrorEffect None p = p
  /\ PlannerView.externalErrorEffect (Some "") p = p
  /\ (forall details b,
        PlannerView.externalErrorEffect
          (generationError (step estimate b (RouteFound details))) p = p).
Proof.
  intros Hfind Haw He shown. subst shown.
  rewrite (init_thrown_caught estimate a c ev e Hfind Haw He).
  destruct (init_catch_effect c e a) as (_ & -> & _).
  split; [| split; [| split; [| split; [| split]]]].
  - intros m ->. rewrite failureMessage_string.
    now destruct (includes m "timed out" || includes m "timeout").
  - intros ->. reflexivity.
  - intros Hto. now rewrite (init_thrown_timeout ev e Hto He).
  - intros ->. reflexivity.
  - intros answers -> Hn. simpl. now rewrite Hn.
  - repeat split.
Qed.

Lemma generation_failure_reaches_planner_witness :
  find_init 0 (step Samples.estimate initial (RouteFound Samples.trip))
  = Some (mkInitCall 0 Samples.trip 10 InitAwaitOutline)
  /\ RoutePlanner.error
       (PlannerView.externalErrorEffect
          (generationError
             (step Samples.estimate
                   (step Samples.estimate initial (RouteFound Samples.trip))
                   (InitOutline 0 (OpSettles (Reject (Error "503"))))))
          (RoutePlanner.mkPlanner "a" "b" WALKING NOIR "Kore" None false))
     = Some genericFailure.
Proof.
  split; [reflexivity |].
  exact (f_equal RoutePlanner.error
           (proj1 (generation_failure_reaches_planner Samples.estimate
                     (step Samples.estimate initial (RouteFound Samples.trip))
                     (mkInitCall 0 Samples.trip 10 InitAwaitOutline)
                     (InitOutline 0 (OpSettles (Reject (Error "503"))))
                     (Error "503")
                     (RoutePlanner.mkPlanner "a" "b" WALKING NOIR "Kore" None false)
                     eq_refl eq_refl eq_refl)
                  "503" eq_refl)).
Defined.

(** ** Runs in two parts *)

Lemma run_app (estimate : Z -> Z) (a : App) (l1 l2 : list Event) :
  run estimate a (l1 ++ l2) = run estimate (run estimate a l1) l2.
Proof. unfold run. apply fold_left_app. Qed.

Lemma along_app (estimate : Z -> Z) (p : App -> Event -> bool)
      (l1 l2 : list Event) (a : App) :
  along estimate p a (l1 ++ l2)
  = along estimate p a l1 && along estimate p (run estimate a l1) l2.
Proof.
  revert a. induction l1 as [| ev l1 IH]; intros a; simpl; [reflexivity |].
  rewrite IH. now rewrite andb_assoc.
Qed.

(** ** The route of a failed attempt *)

Lemma In_replaced {X : Type} (f : X -> bool) (y x : X) (l : list X) :
  In x (map (fun z => if f z then y else z) l) ->
  (x = y /\ exists z, In z l /\ f z = true) \/ In x l.
Proof.
  induction l as [| z l IH]; simpl; [auto |].
  intros [H | H].
  - destruct (f z) eqn:Hz; [left | right; now left].
    split; [now symmetry | exists z; auto].
  - destruct (IH H) as [(Hx & w & Hw & Hfw) | Hin]; [left | right; now right].
    split; [exact Hx | exists w; auto].
Qed.

Lemma routeOfAttempt_step (estimate : Z -> Z) (a : App) (ev : Event) :
  phaseShape a -> routeOfAttempt a -> offered a ev = true ->
  routeOfAttempt (step estimate a ev).
Proof.
  intros Hph Hinv Hoff.
  generalize (step_transition estimate a ev).
  generalize (step estimate a ev). intros a' T. revert Hoff.
  destruct T as [ ev
                | s r c Hs Hr Hl Hid Hidx Hst
                | c sd Hf Hst
                | c sd ctx buf Hf Hst
                | c sd buf ctx u Hf Hst
                | c e ev Hf
                | details
                | c o Hf Hst
                | c o beat sd Hf Hst
                | c o sd ctx buf Hf Hst
                | c o sd buf ctx u Hf Hst
                | c e ev Hf
                | i
                | ];
    intros Hoff; try exact Hinv; unfold routeOfAttempt in *; simpl.
  - (* a route is submitted *)
    simpl in Hoff. unfold phaseShape in Hph.
    destruct (appState a); try discriminate; try contradiction.
    destruct Hph as (_ & Hi). rewrite Hi. simpl.
    intros c [<- | []]. reflexivity.
  - intros x Hx. destruct (find_init_some _ _ _ Hf) as [Hin _].
    apply In_replaced in Hx as [(-> & _) | Hx]; [simpl |]; auto.
  - intros x Hx. destruct (find_init_some _ _ _ Hf) as [Hin _].
    apply In_replaced in Hx as [(-> & _) | Hx]; [simpl |]; auto.
  - intros x Hx. destruct (find_init_some _ _ _ Hf) as [Hin _].
    apply In_replaced in Hx as [(-> & _) | Hx]; [simpl |]; auto.
  - (* the timeline is created *)
    intros x Hx. apply filter_In in Hx as [Hx _]. auto.
  - (* an initial await throws *)
    intros x Hx. apply filter_In in Hx as [Hx _]. auto.
  - (* reset *)
    simpl in Hoff. unfold playerShown in Hoff. unfold phaseShape in Hph.
    destruct (appState a); try discriminate.
    destruct Hph as (_ & _ & Hi). rewrite Hi. intros x [].
Qed.

Lemma routeOfAttempt_run (estimate : Z -> Z) (evs : list Event) :
  along estimate offered initial evs = true ->
  phaseShape (run estimate initial evs)
  /\ routeOfAttempt (run estimate initial evs).
Proof.
  assert (H0 : phaseShape initial /\ routeOfAttempt initial).
  { split; [now split | intros c []]. }
  revert H0. generalize initial.
  induction evs as [| ev evs IH]; intros a Ha Ho; [exact Ha |].
  simpl in Ho. apply andb_true_iff in Ho as [Hev Hrest].
  simpl. apply IH; [| exact Hrest]. destruct Ha as [Ha1 Ha2]. split.
  - now apply phaseShape_step.
  - now apply routeOfAttempt_step.
Qed.

Lemma attemptOf_step (estimate : Z -> Z) (n : nat) (details : RouteDetails)
      (a : App) (ev : Event) :
  attemptOf n details a -> attemptOf n details (step estimate a ev).
Proof.
  intros (Hn & Hd).
  generalize (step_transition estimate a ev).
  generalize (step estimate a ev). intros a' T.
  destruct T as [ ev
                | s r c Hs Hr Hl Hid Hidx Hst
                | c sd Hf Hst
                | c sd ctx buf Hf Hst
                | c sd buf ctx u Hf Hst
                | c e ev Hf
                | submitted
                | c o Hf Hst
                | c o beat sd Hf Hst
                | c o sd ctx buf Hf Hst
                | c o sd buf ctx u Hf Hst
                | c e ev Hf
                | i
                | ];
    unfold attemptOf; simpl; try (split; [lia || exact Hn | exact Hd]).
  - split; [lia |]. intros x Hx Hid.
    apply in_app_or in Hx as [Hx | [<- | []]]; [auto |].
    simpl in Hid. lia.
  - split; [exact Hn |]. intros x Hx Hid.
    destruct (find_init_some _ _ _ Hf) as [Hin _].
    apply In_replaced in Hx as [(-> & _) | Hx]; [simpl in * |]; auto.
  - split; [exact Hn |]. intros x Hx Hid.
    destruct (find_init_some _ _ _ Hf) as [Hin _].
    apply In_replaced in Hx as [(-> & _) | Hx]; [simpl in * |]; auto.
  - split; [exact Hn |]. intros x Hx Hid.
    destruct (find_init_some _ _ _ Hf) as [Hin _].
    apply In_replaced in Hx as [(-> & _) | Hx]; [simpl in * |]; auto.
  - split; [exact Hn |]. intros x Hx Hid.
    apply filter_In in Hx as [Hx _]. auto.
  - split; [exact Hn |]. intros x Hx Hid.
    apply filter_In in Hx as [Hx _]. auto.
Qed.

Lemma attemptOf_run (estimate : Z -> Z) (n : nat) (details : RouteDetails)
      (evs : list Event) (a : App) :
  attemptOf n details a -> attemptOf n details (run estimate a evs).
Proof.
  revert a. induction evs as [| ev evs IH]; intros a Ha; [exact Ha |].
  simpl. apply IH. now apply attemptOf_step.
Qed.

Lemma attemptOf_start (estimate : Z -> Z) (details : RouteDetails) (a : App) :
  initCalls a = [] ->
  attemptOf (nextCall a) details (step estimate a (RouteFound details)).
Proof.
  intros Hi. unfold attemptOf. simpl. rewrite Hi. simpl. split; [lia |].
  intros c [<- | []] _. reflexivity.
Qed.

(** C8, amended: a failed initial generation puts the phase back to
    PLANNING and leaves the rest of the session as it was.  Whatever the
    page did before the submission, and whichever await of the attempt
    throws, however long after the submission: [route] still holds the
    details captured at that submission, and the timeline (there is none)
    and the playback position are untouched. *)
Theorem failed_initial_generation
        (estimate : Z -> Z) (before during : list Event)
        (details : RouteDetails) (c : InitCall) (ev : Event) :
  let a0 := run estimate initial before in
  let a := run estimate initial (before ++ RouteFound details :: during) in
  along estimate offered initial (before ++ RouteFound details :: during) = true ->
  find_init (nextCall a0) a = Some c -> init_awaits c ev -> throws ev ->
  let a' := step estimate a ev in
  appState a' = PLANNING
  /\ route a' = Some details
  /\ init_details c = details
  /\ story a' = story a /\ story a' = None
  /\ currentPlayingIndex a' = currentPlayingIndex a
  /\ initCalls a' = [].
Proof.
  intros a0 a Ho Hf Haw Hth a'.
  destruct (find_init_some _ _ _ Hf) as [Hin Hid].
  (* the page as a whole *)
  destruct (routeOfAttempt_run estimate _ Ho) as [Hph Hroute]. fold a in Hph, Hroute.
  destruct (phaseShape_initial_call a c Hph Hin) as (_ & Hs & _ & Hlen).
  (* the attempt *)
  rewrite along_app in Ho. apply andb_true_iff in Ho as [Hbefore Hrest].
  simpl in Hrest. apply andb_true_iff in Hrest as [Hoff _].
  fold a0 in Hoff.
  assert (Hatt : attemptOf (nextCall a0) details a).
  { subst a. rewrite run_app. simpl. apply attemptOf_run.
    apply attemptOf_start.
    destruct (routeOfAttempt_run estimate _ Hbefore) as [Hph0 _].
    fold a0 in Hph0. unfold phaseShape in Hph0. simpl in Hoff.
    destruct (appState a0); try discriminate; try contradiction.
    apply Hph0. }
  destruct Hatt as (_ & Hdet). specialize (Hdet c Hin Hid).
  rewrite <- Hid in Hf.
  destruct (init_throw_caught estimate a c ev Hf Haw Hth) as (e & _ & He).
  subst a'. rewrite He.
  destruct (init_catch_effect c e a)
    as (H1 & _ & H3 & H4 & H5 & _ & _ & H8).
  rewrite H1, H3, H4, H5, H8, Hs, (Hroute c Hin), Hdet.
  repeat split.
  apply (drop_only (fun c' => Nat.eqb (init_id c') (init_id c)) _ c);
    [lia | exact Hf].
Qed.

Lemma failed_initial_generation_witness :
  along Samples.estimate offered initial
        ([] ++ RouteFound Samples.trip :: MoreSamples.awaitingAudio) = true
  /\ find_init (nextCall (run Samples.estimate initial []))
               (run Samples.estimate initial
                    ([] ++ RouteFound Samples.trip :: MoreSamples.awaitingAudio))
     = Some MoreSamples.audioCall
  /\ route (step Samples.estimate
                 (run Samples.estimate initial
                      ([] ++ RouteFound Samples.trip :: MoreSamples.awaitingAudio))
                 (InitAudio 0 (OpSettles (Reject (Error "503")))))
     = Some Samples.trip.
Proof.
  assert (H1 : along Samples.estimate offered initial
                     ([] ++ RouteFound Samples.trip :: MoreSamples.awaitingAudio)
               = true)
    by (vm_compute; reflexivity).
  assert (H2 : find_init (nextCall (run Samples.estimate initial []))
                 (run Samples.estimate initial
                      ([] ++ RouteFound Samples.trip :: MoreSamples.awaitingAudio))
               = Some MoreSamples.audioCall)
    by (vm_compute; reflexivity).
  split; [exact H1 |]. split; [exact H2 |].
  exact (proj1 (proj2 (failed_initial_generation Samples.estimate []
                         MoreSamples.awaitingAudio Samples.trip
                         MoreSamples.audioCall
                         (InitAudio 0 (OpSettles (Reject (Error "503"))))
                         H1 H2 eq_refl I))).
Defined.

(** ** The initial generation, await by await *)



